(** * everest: entities, aggregates, order visitors and the unit of work

    A shallow embedding of [everest/entities/base.py] and
    [everest/querying/ordering.py], together with the lifecycle rules of
    the unit of work that [everest/tests/test_uow.py] exercises.

    Python objects that are mutated in place and shared by reference
    (aggregates, the join list of the SQL order visitor) live in explicit
    heaps; lists indexed by integers use Python's indexing rules. *)

From Stdlib Require Import ZArith Ascii String List Permutation Sorted Lia Bool.
From stdpp Require Import base decidable option list gmap strings pretty.

Local Open Scope string_scope.
Local Open Scope list_scope.
Local Open Scope Z_scope.

(** ** Python values *)

(** The values an entity attribute (and in particular [id]) can hold. *)
Inductive value :=
| VNone
| VInt (z : Z)
| VStr (s : string).

#[global] Instance value_eq_dec : EqDecision value.
Proof. solve_decision. Defined.

(** [a == b] on attribute values. *)
Definition value_eqb (a b : value) : bool := bool_decide (a = b).

(** [a is None]. *)
Definition is_None (a : value) : bool :=
  match a with VNone => true | _ => false end.

(** [a < b] in Python 2: [None] sorts before numbers, numbers before
    strings. *)
Definition value_ltb (a b : value) : bool :=
  match a, b with
  | VNone, VNone => false
  | VNone, _ => true
  | VInt _, VNone => false
  | VInt x, VInt y => (x <? y)%Z
  | VInt _, VStr _ => true
  | VStr _, VNone => false
  | VStr _, VInt _ => false
  | VStr s, VStr t => match String.compare s t with Lt => true | _ => false end
  end.

(** ** Exceptions and results *)

Inductive exn :=
| ValueError (msg : string)
| AttributeError (msg : string)
| NotImplementedError (msg : string)
| IndexError
| TypeError (msg : string)
| MultipleResultsException.

(** The outcome of running a piece of code: a value, a raised exception,
    or (for the fuelled loops only) exhausted fuel. *)
Inductive result (A : Type) :=
| Done (a : A)
| Raise (e : exn)
| OutOfFuel.

Arguments Done {A} a.
Arguments Raise {A} e.
Arguments OutOfFuel {A}.

#[global] Instance result_ret : MRet result := @Done.
#[global] Instance result_bind : MBind result :=
  fun A B f m =>
    match m with
    | Done a => f a
    | Raise e => Raise e
    | OutOfFuel => OutOfFuel
    end.

(** [mapM] for [result]: run [f] on each element, left to right. *)
Fixpoint result_mapM {A B : Type} (f : A -> result B) (l : list A)
  : result (list B) :=
  match l with
  | [] => Done []
  | x :: l' => y ← f x; ys ← result_mapM f l'; Done (y :: ys)
  end.

(** Code that updates a store [S] and may raise: the store as it is when
    the code returns or raises is part of the outcome. *)
Definition M (S A : Type) : Type := S -> result A * S.

#[global] Instance M_ret (S : Type) : MRet (M S) := fun A a s => (Done a, s).
#[global] Instance M_bind (S : Type) : MBind (M S) :=
  fun A B f m s =>
    match m s with
    | (Done a, s') => f a s'
    | (Raise e, s') => (Raise e, s')
    | (OutOfFuel, s') => (OutOfFuel, s')
    end.

Definition raise {S A : Type} (e : exn) : M S A := fun s => (Raise e, s).
Definition get_store {S : Type} : M S S := fun s => (Done s, s).
Definition modify_store {S : Type} (f : S -> S) : M S unit :=
  fun s => (Done tt, f s).

(** Object references. *)
Abbreviation loc := positive (only parsing).

(** ** Entities ([everest/entities/base.py], class [Entity]) *)

Module Entities.

(** A class is given by its linearisation: its own name first, then its
    base classes up to [Entity]. *)
Definition klass := list string.

(** [issubclass(a, b)]. *)
Definition issubclass (a b : klass) : bool := bool_decide (b `suffix_of` a).

Record Entity := mkEntity {
  ent_class : klass;                 (* [self.__class__] *)
  id : value;                        (* [self.id], [None] by default *)
  attrs : gmap string value          (* the other instance attributes *)
}.

#[global] Instance Entity_eq_dec : EqDecision Entity.
Proof. solve_decision. Defined.

(** [isinstance(o, c)]. *)
Definition isinstance (o : Entity) (c : klass) : bool :=
  issubclass (ent_class o) c.

(** [Entity.slug]: [None] if [self.id is None], else [str(self.id)]. *)
Definition slug (self : Entity) : value :=
  match id self with
  | VNone => VNone
  | VInt z => VStr (pretty z)
  | VStr s => VStr s
  end.

(** [Entity.__eq__]. *)
Definition __eq__ (self other : Entity) : bool :=
  isinstance other (ent_class self)
  && value_eqb (id self) (id other)
  && negb (is_None (id self) && is_None (id other)).

(** [Entity.__ne__]. *)
Definition __ne__ (self other : Entity) : bool := negb (__eq__ self other).

(** [self == other] and [self != other].  For a rich comparison the
    interpreter asks the right operand first when its class is a proper
    subclass of the class of the left operand, and the left operand
    otherwise.  [Entity.__eq__] and [Entity.__ne__] always answer with a
    truth value (never [NotImplemented]), so the operand asked first
    decides.  Entity classes inherit both methods from [Entity]. *)
Definition asks_right_first (self other : Entity) : bool :=
  negb (bool_decide (ent_class self = ent_class other))
  && issubclass (ent_class other) (ent_class self).

Definition eq_operator (self other : Entity) : bool :=
  if asks_right_first self other then __eq__ other self
  else __eq__ self other.

Definition ne_operator (self other : Entity) : bool :=
  if asks_right_first self other then __ne__ other self
  else __ne__ self other.

(** [getattr(ent, name)] for the names that hold data; [None] stands for
    [AttributeError].  The lookup finds what class [Entity] defines, the
    [slug] property (a property of the class is found before the
    attributes of the instance) and [id] (the class holds [id = None],
    [__init__] sets it on the instance), and then the attributes of the
    instance. *)
Definition getattr (ent : Entity) (name : string) : option value :=
  if bool_decide (name = "slug") then Some (slug ent)
  else if bool_decide (name = "id") then Some (id ent)
  else attrs ent !! name.

End Entities.

Import Entities.

Module EntityExamples.

Definition MyEntity : klass := ["MyEntity"; "Entity"].
Definition MySubEntity : klass := ["MySubEntity"; "MyEntity"; "Entity"].

Definition base1 : Entity := mkEntity MyEntity (VInt 1) ∅.
Definition sub1 : Entity := mkEntity MySubEntity (VInt 1) ∅.
Definition anon : Entity := mkEntity MyEntity VNone ∅.
Definition base1_text : Entity :=
  mkEntity MyEntity (VInt 1) (<["text" := VStr "one"]> ∅).

End EntityExamples.

(** ** Python lists *)

Section PyList.
Context {A : Type}.

(** The position [lst[i]] denotes in a list of length [len]: negative
    indices count from the end, anything else out of range is an
    [IndexError]. *)
Definition py_index (len : nat) (i : Z) : result nat :=
  if (0 <=? i) && (i <? Z.of_nat len) then Done (Z.to_nat i)
  else if (- Z.of_nat len <=? i) && (i <? 0) then
    Done (Z.to_nat (Z.of_nat len + i))
  else Raise IndexError.

(** [lst[i]]. *)
Definition getitem (lst : list A) (i : Z) : result A :=
  n ← py_index (length lst) i;
  match lst !! n with
  | Some x => Done x
  | None => Raise IndexError
  end.

(** [lst[i] = x]. *)
Definition setitem (lst : list A) (i : Z) (x : A) : result (list A) :=
  n ← py_index (length lst) i;
  Done (<[n:=x]> lst).

End PyList.

(** ** Sorters ([everest/querying/ordering.py]) *)

Module Sorting.

(** The order object handed to a sorter; the code only calls [lt]. *)
Record Order (A : Type) := { lt : A -> A -> bool }.
Arguments lt {A} _ _ _.

(** The two hooks a [SorterTemplate] subclass supplies. [_split] returns
    the list as it leaves it and the split index. *)
Class SorterTemplate (A : Type) := {
  _split : nat -> list A -> Z -> Z -> result (list A * Z);
  _join : list A -> Z -> Z -> Z -> result (list A)
}.

Section Template.
Context {A : Type} `{SorterTemplate A}.

(** [SorterTemplate.sort(lst, lo=None, hi=None)]; the list is updated in
    place, so the updated list is threaded through the calls. *)
Fixpoint sort (fuel : nat) (lst : list A) (lo hi : option Z)
  : result (list A) :=
  let lo := match lo with None => 0 | Some lo => lo end in
  let hi := match hi with None => Z.of_nat (length lst) - 1 | Some hi => hi end in
  if lo <? hi then
    match fuel with
    | O => OutOfFuel
    | S fuel' =>
        '(lst, s) ← _split fuel lst lo hi;
        lst ← sort fuel' lst (Some lo) (Some (s - 1));
        lst ← sort fuel' lst (Some s) (Some hi);
        _join lst lo s hi
    end
  else Done lst.

End Template.

Section Bubble.
Context {A : Type} (_order : Order A).

(** The [while lo < j] loop of [BubbleSorter._split]. *)
Fixpoint split_loop (fuel : nat) (lst : list A) (lo j : Z)
  : result (list A) :=
  if lo <? j then
    match fuel with
    | O => OutOfFuel
    | S fuel' =>
        a ← getitem lst j;
        b ← getitem lst (j - 1);
        lst ← (if lt _order a b then
                 temp ← getitem lst j;
                 v ← getitem lst (j - 1);
                 lst ← setitem lst j v;
                 setitem lst (j - 1) temp
               else Done lst);
        split_loop fuel' lst lo (j - 1)
    end
  else Done lst.

(** [BubbleSorter]: one bubbling pass moves the least element of
    [lst[lo..hi]] to [lo]; nothing is left to do when joining. *)
#[global] Instance BubbleSorter : SorterTemplate A := {
  _split fuel lst lo hi := lst ← split_loop fuel lst lo hi; Done (lst, lo + 1);
  _join lst low_index split_index high_index := Done lst
}.

End Bubble.

End Sorting.

Module SortingExamples.
Import Sorting.

Definition Z_order : Order Z := {| lt := Z.ltb |}.

Definition sorted_3142 : result (list Z) :=
  Eval vm_compute in
    @sort Z (BubbleSorter Z_order) 4 [3; 1; 4; 2]%Z None None.

End SortingExamples.

(** ** Vocabulary for the sorters *)

Module SortingSpec.
Import Sorting.

Section Passes.
Context {A : Type} (ltb : A -> A -> bool).

(** A strict comparison never holds both ways. *)
Definition asymmetric : Prop :=
  forall x y, ltb x y = true -> ltb y x = false.

(** One comparison of a bubbling pass: [x] meets the element the pass
    carries, the head of [acc]; the lesser of the two is carried on. *)
Definition bubble_step (x : A) (acc : list A) : list A :=
  match acc with
  | [] => [x]
  | m :: r => if ltb m x then m :: x :: r else x :: m :: r
  end.

(** A bubbling pass over a whole list, from its right end to its left. *)
Definition bubble (l : list A) : list A := foldr bubble_step [] l.

(** [n] passes, each over what the pass before left behind its head. *)
Fixpoint bubble_sort (n : nat) (l : list A) : list A :=
  match n with
  | O => l
  | S n' =>
      match bubble l with
      | [] => []
      | m :: r => m :: bubble_sort n' r
      end
  end.

(** What a pass that brought [m] to the front leaves behind it: every
    element of [rest] is not less than [m], or not less than some element
    before it in [rest]. *)
Definition settled (m : A) (rest : list A) : Prop :=
  forall pre c post,
    rest = pre ++ c :: post ->
    ltb c m = false \/ exists x, x ∈ pre /\ ltb c x = false.

(** No element is followed by one that is less. *)
Definition adjacent_sorted (l : list A) : Prop :=
  forall (i : nat) (x y : A),
    l !! i = Some x -> l !! S i = Some y -> ltb y x = false.

End Passes.

End SortingSpec.

(** ** Order specifications *)

Module Specifications.

(** Modelled from the spec: the order specification classes of
    [everest.querying.specifications] are not among the sources. An order
    specification is ascending or descending on an attribute, or the
    conjunction of two order specifications. *)
Inductive OrderSpecification :=
| AscendingOrderSpecification (attr_name : string)
| DescendingOrderSpecification (attr_name : string)
| ConjunctionOrderSpecification (left right : OrderSpecification).

(** Modelled from the spec: the filter specification classes of
    [everest.querying.specifications] are not among the sources. A filter
    specification compares an attribute with a value (equality, order,
    membership in a set, range) or combines filter specifications by
    conjunction, disjunction and negation. *)
Inductive FilterSpecification :=
| ValueEqualToFilterSpecification (attr_name : string) (v : value)
| ValueLessThanFilterSpecification (attr_name : string) (v : value)
| ValueGreaterThanFilterSpecification (attr_name : string) (v : value)
| ValueContainedFilterSpecification (attr_name : string) (vs : list value)
| ValueInRangeFilterSpecification (attr_name : string) (lo hi : value)
| ConjunctionFilterSpecification (left right : FilterSpecification)
| DisjunctionFilterSpecification (left right : FilterSpecification)
| NegationFilterSpecification (wrapped : FilterSpecification).

(** Modelled from the spec: [spec.is_satisfied_by(ent)]; a criterion on
    an attribute the entity does not have is not satisfied. *)
Fixpoint is_satisfied_by (spec : FilterSpecification) (ent : Entity) : bool :=
  let on_attr (attr_name : string) (p : value -> bool) :=
    match getattr ent attr_name with Some a => p a | None => false end in
  match spec with
  | ValueEqualToFilterSpecification n v => on_attr n (fun a => value_eqb a v)
  | ValueLessThanFilterSpecification n v => on_attr n (fun a => value_ltb a v)
  | ValueGreaterThanFilterSpecification n v =>
      on_attr n (fun a => value_ltb v a)
  | ValueContainedFilterSpecification n vs =>
      on_attr n (fun a => bool_decide (a ∈ vs))
  | ValueInRangeFilterSpecification n lo hi =>
      on_attr n (fun a => negb (value_ltb a lo) && negb (value_ltb hi a))
  | ConjunctionFilterSpecification l r =>
      is_satisfied_by l ent && is_satisfied_by r ent
  | DisjunctionFilterSpecification l r =>
      is_satisfied_by l ent || is_satisfied_by r ent
  | NegationFilterSpecification w => negb (is_satisfied_by w ent)
  end.

(** [get_filter_specification_factory().create_conjunction(l, r)]. *)
Definition create_conjunction (l r : FilterSpecification)
  : FilterSpecification := ConjunctionFilterSpecification l r.

End Specifications.

Import Specifications.

(** ** [SqlOrderSpecificationVisitor] *)

Module SqlOrder.

Section Visitor.
Context {Join Column : Type} `{EqDecision Join}.

(** [attr.asc()] and [attr.desc()]. *)
Inductive OrderExpr :=
| AscExpr (attr : Column)
| DescExpr (attr : Column).

(** An entry of the order conditions: [{'join': ..., 'attr': ...}]. *)
Record Conditions := { cond_join : Join; cond_attr : Column }.

(** The list objects that hold joins. *)
Abbreviation Heap := (gmap positive (list Join)).

Record SqlOrderSpecificationVisitor := {
  __klass : gmap string Column;             (* attributes of the mapped class *)
  __order_conditions : gmap string Conditions;
  __joins : loc                             (* reference to the join list *)
}.

(** A new list object holding [js]. *)
Definition new_list (js : list Join) : M Heap loc :=
  fun h => let l := fresh (dom h) in (Done l, <[l := js]> h).

(** [SqlOrderSpecificationVisitor.__init__]: [self.__joins = []] makes a
    new list object. *)
Definition __init__ (klass : gmap string Column)
    (order_conditions : option (gmap string Conditions))
  : M Heap SqlOrderSpecificationVisitor :=
  let order_conditions :=
    match order_conditions with None => ∅ | Some oc => oc end in
  l ← new_list [];
  mret {| __klass := klass;
          __order_conditions := order_conditions;
          __joins := l |}.

(** Contents of the list object at [l]. *)
Definition read_list (l : loc) : M Heap (list Join) :=
  fun h =>
    match h !! l with
    | Some js => (Done js, h)
    | None => (Raise (AttributeError "__joins"), h)
    end.

(** [get_joins]: [self.__joins[:]] is a new list object with the same
    elements; the reference to it is returned. *)
Definition get_joins (self : SqlOrderSpecificationVisitor) : M Heap loc :=
  js ← read_list (__joins self); new_list js.

(** [__get_attr]. *)
Definition __get_attr (self : SqlOrderSpecificationVisitor)
    (attr_name : string) : M Heap Column :=
  match __order_conditions self !! attr_name with
  | Some conditions =>
      js ← read_list (__joins self);
      _ ← (if bool_decide (cond_join conditions ∈ js) then mret tt
           else modify_store
                  (<[__joins self := (js ++ [cond_join conditions])%list]>));
      mret (cond_attr conditions)
  | None =>
      match __klass self !! attr_name with
      | Some attr => mret attr
      | None => raise (AttributeError attr_name)
      end
  end.

Definition _asc_op (self : SqlOrderSpecificationVisitor) (attr_name : string)
  : M Heap (list OrderExpr) :=
  attr ← __get_attr self attr_name; mret [AscExpr attr].

Definition _desc_op (self : SqlOrderSpecificationVisitor) (attr_name : string)
  : M Heap (list OrderExpr) :=
  attr ← __get_attr self attr_name; mret [DescExpr attr].

(** [reduce(add_operator, expressions)] on tuples. *)
Definition _conjunction_op (expressions : list (list OrderExpr))
  : M Heap (list OrderExpr) :=
  match expressions with
  | [] => raise (TypeError "reduce() of empty sequence with no initial value")
  | e :: es => mret (foldl (fun a b => (a ++ b)%list) e es)
  end.

(** [spec.accept(visitor)]: the operands of a conjunction are visited
    left to right, then combined. *)
Fixpoint visit (self : SqlOrderSpecificationVisitor)
    (spec : OrderSpecification) : M Heap (list OrderExpr) :=
  match spec with
  | AscendingOrderSpecification a => _asc_op self a
  | DescendingOrderSpecification a => _desc_op self a
  | ConjunctionOrderSpecification l r =>
      le ← visit self l;
      re ← visit self r;
      _conjunction_op [le; re]
  end.

(** The join list of the visitor exists and has no duplicates. *)
Definition joins_ok (v : SqlOrderSpecificationVisitor) (h : Heap) : Prop :=
  exists js, h !! __joins v = Some js /\ NoDup js.

End Visitor.

End SqlOrder.

(** ** [KeyFunctionOrderSpecificationVisitor] *)

Module KeyFunctionOrder.

(** The Python objects the order functions return. *)
#[warnings="-register-all"]
Inductive pyobj :=
| PEntity (e : Entity)
| PList (l : list pyobj)
| PTuple (l : list pyobj).

Definition order_func : Type := list Entity -> result pyobj.

(** Insertion of a keyed entity into a sorted list, behind the elements
    that must come first ([first y x]: [y] goes strictly before [x]). *)
Fixpoint insert_keyed (first : value -> value -> bool)
    (x : value * Entity) (l : list (value * Entity)) : list (value * Entity) :=
  match l with
  | [] => [x]
  | y :: l' =>
      if first y.1 x.1 then y :: insert_keyed first x l' else x :: y :: l'
  end.

(** [sorted(entities, key=key_func, reverse=...)]: a stable sort, which
    keeps entities with equal keys in their original order also when
    reversed. *)
Definition sorted (entities : list Entity) (key_func : Entity -> result value)
    (reverse : bool) : result (list Entity) :=
  keys ← result_mapM key_func entities;
  let first := if reverse then (fun a b => value_ltb b a) else value_ltb in
  Done (foldr (insert_keyed first) [] (zip keys entities)).*2.

(** [lambda ent: getattr(ent, spec.attr_name)]: the value the entity has
    under that name (an instance attribute, [id] or the [slug]
    property), [AttributeError] when it has none. *)
Definition key_func (attr_name : string) (ent : Entity) : result value :=
  match getattr ent attr_name with
  | Some v => Done v
  | None => Raise (AttributeError attr_name)
  end.

Definition _asc_op (attr_name : string) : order_func :=
  fun entities =>
    l ← sorted entities (key_func attr_name) false;
    Done (PList (PEntity <$> l)).

Definition _desc_op (attr_name : string) : order_func :=
  fun entities =>
    l ← sorted entities (key_func attr_name) true;
    Done (PList (PEntity <$> l)).

(** [zip(seq)] with a single argument: the 1-tuples of its elements. *)
Definition zip1 (seq : list pyobj) : pyobj :=
  PList ((fun x => PTuple [x]) <$> seq).

(** [lambda entities: zip([order_func(entities) for order_func in
    expressions])]. *)
Definition _conjunction_op (expressions : list order_func) : order_func :=
  fun entities =>
    rs ← result_mapM (fun order_func => order_func entities) expressions;
    Done (zip1 rs).

(** [spec.accept(visitor)]. *)
Fixpoint visit (spec : OrderSpecification) : order_func :=
  match spec with
  | AscendingOrderSpecification a => _asc_op a
  | DescendingOrderSpecification a => _desc_op a
  | ConjunctionOrderSpecification l r => _conjunction_op [visit l; visit r]
  end.

End KeyFunctionOrder.

Module OrderExamples.
Import KeyFunctionOrder.

Definition Person : klass := ["Person"; "Entity"].

Definition person (i a b : Z) : Entity :=
  mkEntity Person (VInt i) (<["a" := VInt a]> (<["b" := VInt b]> ∅)).

Definition p0 : Entity := person 0 2 0.
Definition p1 : Entity := person 1 1 2.
Definition p2 : Entity := person 2 1 1.

Definition by_a_then_b : OrderSpecification :=
  ConjunctionOrderSpecification (AscendingOrderSpecification "a")
                                (AscendingOrderSpecification "b").

End OrderExamples.

(** ** Aggregates ([everest/entities/base.py]) *)

Module Aggregates.

(** A slice key, [slice(start, stop)]. *)
Record slice := { start : option Z; stop : option Z }.

(** What a relationship object exposes to a relationship aggregate:
    [descriptor.cascade] and [specification]; its [add] and [remove] act
    on the world. *)
Record Relationship := {
  rel_ref : positive;
  cascade : Z;
  specification : FilterSpecification
}.

(** The three settings every aggregate holds. *)
Record Slots := {
  _filter_spec : option FilterSpecification;
  _order_spec : option OrderSpecification;
  _slice_key : option slice
}.

(** The instance attributes [RootAggregate.__init__] sets, with the
    concrete class of the aggregate and the [_expression_kind] that class
    defines. *)
Record RootFields := {
  agg_class : string;
  _expression_kind : string;
  entity_class_attr : klass;          (* [self.entity_class] *)
  _session_factory : positive;
  __repository : positive
}.

(** An aggregate object. The attributes [_root_aggregate] and
    [_relationship] of a relationship aggregate are set by [__init__]
    only; [None] stands for an attribute the object does not have. *)
Inductive Aggregate :=
| RootAggregate (slots : Slots) (fields : RootFields)
| RelationshipAggregate (slots : Slots)
    (_root_aggregate : option loc) (_relationship : option Relationship).

Definition slots_of (a : Aggregate) : Slots :=
  match a with
  | RootAggregate s _ => s
  | RelationshipAggregate s _ _ => s
  end.

Definition with_slots (a : Aggregate) (s : Slots) : Aggregate :=
  match a with
  | RootAggregate _ f => RootAggregate s f
  | RelationshipAggregate _ r rel => RelationshipAggregate s r rel
  end.

(** The collaborators the aggregates call but this module does not
    define: the session, the query objects with the specification
    visitors that apply to them, the hooks of the concrete root aggregate
    classes, the domain tree traversal, the relationship objects and the
    cascade flags. All of them act on a world [W]. *)
Class Collaborators (W Query : Type) := {
  CASCADES_ADD : Z;
  CASCADES_DELETE : Z;
  session_get_by_id : positive -> klass -> value -> M W (option Entity);
  session_update : positive -> klass -> Entity -> M W unit;
  session_query : positive -> klass -> M W Query;
  _query_by_id : RootFields -> value -> M W (option Entity);
  root_get_by_slug : Slots -> RootFields -> value -> M W (option Entity);
  filter_query : string -> klass -> FilterSpecification -> Query -> M W Query;
  order_query : string -> klass -> OrderSpecification -> Query -> M W Query;
  query_slice : Query -> option Z -> option Z -> M W Query;
  query_count : Query -> M W Z;
  query_iter : Query -> M W (list Entity);
  traverse_adding : RootFields -> Entity -> M W unit;
  traverse_removing : RootFields -> Entity -> M W unit;
  relationship_add : Relationship -> Entity -> M W unit;
  relationship_remove : Relationship -> Entity -> M W unit
}.

(** The calls that change membership: [add] and [remove] of a
    relationship object and of a root aggregate. The state keeps them in
    the order they are made; the code itself never reads this log, it
    only serves to state which calls a method makes and in which order. *)
Inductive Event :=
| EvRelationshipAdd (rel : Relationship) (entity : Entity)
| EvRelationshipRemove (rel : Relationship) (entity : Entity)
| EvRootAdd (root : positive) (entity : Entity)
| EvRootRemove (root : positive) (entity : Entity).

(** The aggregate objects, the world of the collaborators and the log of
    membership calls. *)
Record State (W : Type) := mkState {
  heap : gmap positive Aggregate;
  world : W;
  trace : list Event
}.
Arguments mkState {W} _ _ _.
Arguments heap {W} _.
Arguments world {W} _.
Arguments trace {W} _.

Section Methods.
Context {W Query : Type} `{Collaborators W Query}.

(** Run a collaborator on the world. *)
Definition liftW {A : Type} (m : M W A) : M (State W) A :=
  fun st =>
    let '(r, w) := m (world st) in (r, mkState (heap st) w (trace st)).

Definition log (ev : Event) : M (State W) unit :=
  modify_store (fun st => mkState (heap st) (world st) (trace st ++ [ev])).

(** The object a reference denotes. *)
Definition deref (l : loc) : M (State W) Aggregate :=
  fun st =>
    match heap st !! l with
    | Some a => (Done a, st)
    | None => (Raise (TypeError "not an aggregate"), st)
    end.

(** A new object. *)
Definition alloc (a : Aggregate) : M (State W) loc :=
  fun st =>
    let l := fresh (dom (heap st)) in
    (Done l, mkState (<[l := a]> (heap st)) (world st) (trace st)).

Definition update_slots (self : loc) (f : Slots -> Slots) : M (State W) unit :=
  a ← deref self;
  modify_store (fun st =>
    mkState (<[self := with_slots a (f (slots_of a))]> (heap st))
            (world st) (trace st)).

(** Reading an instance attribute that may be missing. *)
Definition attr {A : Type} (name : string) (v : option A) : M (State W) A :=
  match v with
  | Some x => mret x
  | None => raise (AttributeError name)
  end.

(** The root aggregate a relationship aggregate delegates to (what
    [make_relationship_aggregate] passes as [root_aggregate]). *)
Definition deref_root (l : loc) : M (State W) (Slots * RootFields) :=
  a ← deref l;
  match a with
  | RootAggregate s f => mret (s, f)
  | RelationshipAggregate _ _ _ => raise (TypeError "not a root aggregate")
  end.

(** *** Settings *)

(** [Aggregate._set_filter], [_get_order], [_set_order], [_get_slice],
    [_set_slice]. *)
Definition _set_filter (self : loc) (filter_spec : option FilterSpecification)
  : M (State W) unit :=
  update_slots self (fun s =>
    {| _filter_spec := filter_spec;
       _order_spec := _order_spec s; _slice_key := _slice_key s |}).

Definition _get_order (self : loc) : M (State W) (option OrderSpecification) :=
  a ← deref self; mret (_order_spec (slots_of a)).

Definition _set_order (self : loc) (order_spec : option OrderSpecification)
  : M (State W) unit :=
  update_slots self (fun s =>
    {| _filter_spec := _filter_spec s;
       _order_spec := order_spec; _slice_key := _slice_key s |}).

Definition _get_slice (self : loc) : M (State W) (option slice) :=
  a ← deref self; mret (_slice_key (slots_of a)).

Definition _set_slice (self : loc) (slice_key : option slice)
  : M (State W) unit :=
  update_slots self (fun s =>
    {| _filter_spec := _filter_spec s;
       _order_spec := _order_spec s; _slice_key := slice_key |}).

(** [_get_filter]: [Aggregate._get_filter] on a root aggregate; on a
    relationship aggregate the override, which prepends the
    specification of the relationship. *)
Definition _get_filter (self : loc)
  : M (State W) (option FilterSpecification) :=
  a ← deref self;
  match a with
  | RootAggregate s _ => mret (_filter_spec s)
  | RelationshipAggregate s _ rel =>
      rel ← attr "_relationship" rel;
      let rel_spec := specification rel in
      match _filter_spec s with
      | Some fs => mret (Some (create_conjunction rel_spec fs))
      | None => mret (Some rel_spec)
      end
  end.

(** *** Properties and queries *)

Definition entity_class (self : loc) : M (State W) klass :=
  a ← deref self;
  match a with
  | RootAggregate _ f => mret (entity_class_attr f)
  | RelationshipAggregate _ root _ =>
      root ← attr "_root_aggregate" root;
      '(_, f) ← deref_root root; mret (entity_class_attr f)
  end.

Definition expression_kind (self : loc) : M (State W) string :=
  a ← deref self;
  match a with
  | RootAggregate _ f => mret (_expression_kind f)
  | RelationshipAggregate _ root _ =>
      root ← attr "_root_aggregate" root;
      '(_, f) ← deref_root root; mret (_expression_kind f)
  end.

(** [RootAggregate.query]: [self._session.query(self.entity_class)]. *)
Definition root_query (f : RootFields) : M (State W) Query :=
  liftW (session_query (_session_factory f) (entity_class_attr f)).

Definition query (self : loc) : M (State W) Query :=
  a ← deref self;
  match a with
  | RootAggregate _ f => root_query f
  | RelationshipAggregate _ root _ =>
      root ← attr "_root_aggregate" root;
      '(_, f) ← deref_root root; root_query f
  end.

(** [Aggregate._query_optimizer]: the query as it is. *)
Definition _query_optimizer (query : Query) (slice_key : option slice)
  : M (State W) Query := mret query.

(** [Aggregate._get_filtered_query]. *)
Definition _get_filtered_query (self : loc) (key : option slice)
  : M (State W) Query :=
  q ← query self;
  q ← _query_optimizer q key;
  flt ← _get_filter self;
  match flt with
  | Some _ =>
      kind ← expression_kind self;
      cls ← entity_class self;
      flt ← _get_filter self;
      match flt with
      | Some fs => liftW (filter_query kind cls fs q)
      | None => raise (AttributeError "accept")
      end
  | None => mret q
  end.

(** [Aggregate._get_ordered_query]. *)
Definition _get_ordered_query (self : loc) (key : option slice)
  : M (State W) Query :=
  q ← _get_filtered_query self key;
  a ← deref self;
  match _order_spec (slots_of a) with
  | Some os =>
      kind ← expression_kind self;
      cls ← entity_class self;
      liftW (order_query kind cls os q)
  | None => mret q
  end.

(** [Aggregate._get_data_query]. *)
Definition _get_data_query (self : loc) : M (State W) Query :=
  a ← deref self;
  q ← _get_ordered_query self (_slice_key (slots_of a));
  a ← deref self;
  match _slice_key (slots_of a) with
  | Some k => liftW (query_slice q (start k) (stop k))
  | None => mret q
  end.

(** [Aggregate.iterator], run to the end. *)
Definition iterator (self : loc) : M (State W) (list Entity) :=
  q ← _get_data_query self; liftW (query_iter q).

(** [Aggregate.count]. *)
Definition count (self : loc) : M (State W) Z :=
  q ← _get_filtered_query self None; liftW (query_count q).

(** *** Cloning *)

(** [Aggregate.clone]: a new object of the class of [self] (made by
    [__new__], so without running [__init__]) that receives the three
    settings; [RootAggregate.clone] then copies its own attributes.
    [RelationshipAggregate] does not override [clone]. *)
Definition clone (self : loc) : M (State W) loc :=
  a ← deref self;
  let slots := {| _filter_spec := _filter_spec (slots_of a);
                  _order_spec := _order_spec (slots_of a);
                  _slice_key := _slice_key (slots_of a) |} in
  match a with
  | RootAggregate _ f =>
      alloc (RootAggregate slots
               {| agg_class := agg_class f;
                  _expression_kind := _expression_kind f;
                  entity_class_attr := entity_class_attr f;
                  _session_factory := _session_factory f;
                  __repository := __repository f |})
  | RelationshipAggregate _ _ _ =>
      alloc (RelationshipAggregate slots None None)
  end.

(** *** Root aggregates *)

(** The lookup at the head of [RootAggregate.get_by_id]: the session
    first, the query by id if the session has nothing. *)
Definition root_lookup_by_id (f : RootFields) (id_key : value)
  : M (State W) (option Entity) :=
  ent ← liftW (session_get_by_id (_session_factory f)
                 (entity_class_attr f) id_key);
  match ent with
  | None => liftW (_query_by_id f id_key)
  | Some _ => mret ent
  end.

(** [RootAggregate.get_by_id]. *)
Definition root_get_by_id (self : loc) (id_key : value)
  : M (State W) (option Entity) :=
  '(s, f) ← deref_root self;
  ent ← root_lookup_by_id f id_key;
  match ent, _filter_spec s with
  | Some e, Some fs => if is_satisfied_by fs e then mret ent else mret None
  | _, _ => mret ent
  end.

(** [get_by_slug] of the concrete root aggregate class
    ([RootAggregate.get_by_slug] itself is abstract). *)
Definition root_get_by_slug_at (self : loc) (slug : value)
  : M (State W) (option Entity) :=
  '(s, f) ← deref_root self;
  liftW (root_get_by_slug s f slug).

(** [RootAggregate.add]; the message is cut after its constant part. *)
Definition root_add (self : loc) (entity : Entity) : M (State W) unit :=
  _ ← log (EvRootAdd self entity);
  '(_, f) ← deref_root self;
  if negb (isinstance entity (entity_class_attr f)) then
    raise (ValueError "Can only add entities of type ")
  else liftW (traverse_adding f entity).

(** [RootAggregate.remove]. *)
Definition root_remove (self : loc) (entity : Entity) : M (State W) unit :=
  _ ← log (EvRootRemove self entity);
  '(_, f) ← deref_root self;
  liftW (traverse_removing f entity).

(** [RootAggregate.update]. *)
Definition root_update (self : loc) (entity : Entity) : M (State W) unit :=
  '(_, f) ← deref_root self;
  liftW (session_update (_session_factory f) (entity_class_attr f) entity).

(** *** Relationship aggregates *)

Definition call_relationship_add (rel : Relationship) (entity : Entity)
  : M (State W) unit :=
  _ ← log (EvRelationshipAdd rel entity);
  liftW (relationship_add rel entity).

Definition call_relationship_remove (rel : Relationship) (entity : Entity)
  : M (State W) unit :=
  _ ← log (EvRelationshipRemove rel entity);
  liftW (relationship_remove rel entity).

(** The test both [RelationshipAggregate.get_by_id] and [get_by_slug]
    apply to the entity the root aggregate returns. *)
Definition rel_check_filter (self : loc) (ent : option Entity)
  : M (State W) (option Entity) :=
  match ent with
  | None => mret ent
  | Some e =>
      flt ← _get_filter self;
      match flt with
      | Some fs => if is_satisfied_by fs e then mret ent else mret None
      | None => raise (AttributeError "is_satisfied_by")
      end
  end.

(** [RelationshipAggregate.get_by_id]. *)
Definition rel_get_by_id (self : loc) (root : option loc) (id_key : value)
  : M (State W) (option Entity) :=
  root ← attr "_root_aggregate" root;
  ent ← root_get_by_id root id_key;
  rel_check_filter self ent.

(** [RelationshipAggregate.get_by_slug]. *)
Definition rel_get_by_slug (self : loc) (root : option loc) (slug : value)
  : M (State W) (option Entity) :=
  root ← attr "_root_aggregate" root;
  ent ← root_get_by_slug_at root slug;
  rel_check_filter self ent.

(** [cascade & flag], as a truth value. *)
Definition has_flag (cascade flag : Z) : bool :=
  negb (Z.land cascade flag =? 0).

(** [RelationshipAggregate.add]. *)
Definition rel_add (root : option loc) (rel : option Relationship)
    (entity : Entity) : M (State W) unit :=
  rel ← attr "_relationship" rel;
  _ ← call_relationship_add rel entity;
  if has_flag (cascade rel) CASCADES_ADD then
    absent ← (if is_None (id entity) then mret true
              else
                root ← attr "_root_aggregate" root;
                found ← root_get_by_id root (id entity);
                mret (bool_decide (found = None)));
    if absent : bool then
      root ← attr "_root_aggregate" root;
      root_add root entity
    else mret tt
  else mret tt.

(** [RelationshipAggregate.remove]. *)
Definition rel_remove (root : option loc) (rel : option Relationship)
    (entity : Entity) : M (State W) unit :=
  rel ← attr "_relationship" rel;
  _ ← (if has_flag (cascade rel) CASCADES_DELETE then
         present ← (if negb (is_None (id entity)) then
                      root ← attr "_root_aggregate" root;
                      found ← root_get_by_id root (id entity);
                      mret (negb (bool_decide (found = None)))
                    else mret false);
         if present : bool then
           root ← attr "_root_aggregate" root;
           root_remove root entity
         else mret tt
       else mret tt);
  call_relationship_remove rel entity.

(** *** Method dispatch on the class of [self] *)

Definition get_by_id (self : loc) (id_key : value)
  : M (State W) (option Entity) :=
  a ← deref self;
  match a with
  | RootAggregate _ _ => root_get_by_id self id_key
  | RelationshipAggregate _ root _ => rel_get_by_id self root id_key
  end.

Definition get_by_slug (self : loc) (slug : value)
  : M (State W) (option Entity) :=
  a ← deref self;
  match a with
  | RootAggregate _ _ => root_get_by_slug_at self slug
  | RelationshipAggregate _ root _ => rel_get_by_slug self root slug
  end.

Definition add (self : loc) (entity : Entity) : M (State W) unit :=
  a ← deref self;
  match a with
  | RootAggregate _ _ => root_add self entity
  | RelationshipAggregate _ root rel => rel_add root rel entity
  end.

Definition remove (self : loc) (entity : Entity) : M (State W) unit :=
  a ← deref self;
  match a with
  | RootAggregate _ _ => root_remove self entity
  | RelationshipAggregate _ root rel => rel_remove root rel entity
  end.

End Methods.

End Aggregates.

(** ** An in-memory world *)

Module MemoryWorld.
Import Aggregates.

(** Modelled from the spec: a backend without query capability of its
    own, where a query is the sequence of entities it yields, a filter
    specification keeps the entities that satisfy it, and a relationship
    keeps its members in a collection. The entities of all classes are in
    one store. *)
Record World := mkWorld {
  store : list Entity;
  members : list Entity
}.

Definition lookup_by (key : Entity -> value) (cls : klass) (k : value)
  : M World (option Entity) :=
  fun w =>
    (Done (List.find (fun e => isinstance e cls && value_eqb (key e) k)
             (store w)), w).

Definition drop_entity (e : Entity) (l : list Entity) : list Entity :=
  List.filter (fun x => negb (bool_decide (x = e))) l.

Definition py_slice (l : list Entity) (start stop : option Z) : list Entity :=
  let n := Z.of_nat (length l) in
  let clip i := Z.to_nat (Z.max 0 (Z.min n (if i <? 0 then n + i else i))) in
  let a := match start with None => 0%nat | Some i => clip i end in
  let b := match stop with None => length l | Some i => clip i end in
  take (b - a) (drop a l).

Fixpoint order_entities (spec : OrderSpecification) (l : list Entity)
  : result (list Entity) :=
  match spec with
  | AscendingOrderSpecification a =>
      KeyFunctionOrder.sorted l (KeyFunctionOrder.key_func a) false
  | DescendingOrderSpecification a =>
      KeyFunctionOrder.sorted l (KeyFunctionOrder.key_func a) true
  | ConjunctionOrderSpecification x y =>
      l ← order_entities y l; order_entities x l
  end.

#[global] Instance memory : Collaborators World (list Entity) := {
  CASCADES_ADD := 1;
  CASCADES_DELETE := 2;
  session_get_by_id _ cls k := lookup_by id cls k;
  session_update _ _ _ := mret tt;
  session_query _ cls :=
    fun w => (Done (List.filter (fun e => isinstance e cls) (store w)), w);
  _query_by_id _ _ := mret None;
  root_get_by_slug s f k :=
    ent ← lookup_by slug (entity_class_attr f) k;
    match ent, _filter_spec s with
    | Some e, Some fs => if is_satisfied_by fs e then mret ent else mret None
    | _, _ => mret ent
    end;
  filter_query _ _ fs q := mret (List.filter (is_satisfied_by fs) q);
  order_query _ _ os q := fun w => (order_entities os q, w);
  query_slice q a b := mret (py_slice q a b);
  query_count q := mret (Z.of_nat (length q));
  query_iter q := mret q;
  traverse_adding _ e :=
    modify_store (fun w => mkWorld (store w ++ [e]) (members w));
  traverse_removing _ e :=
    modify_store (fun w => mkWorld (drop_entity e (store w)) (members w));
  relationship_add _ e :=
    modify_store (fun w => mkWorld (store w) (members w ++ [e]));
  relationship_remove _ e :=
    modify_store (fun w => mkWorld (store w) (drop_entity e (members w)))
}.

End MemoryWorld.

Module AggregateExamples.
Import Aggregates MemoryWorld EntityExamples.

Definition Child : klass := ["MyEntityChild"; "Entity"].

Definition child (i : Z) : Entity := mkEntity Child (VInt i) ∅.

Definition no_slots : Slots :=
  {| _filter_spec := None; _order_spec := None; _slice_key := None |}.

Definition child_root : RootFields :=
  {| agg_class := "MemoryAggregate";
     _expression_kind := "EVAL";
     entity_class_attr := Child;
     _session_factory := 1%positive;
     __repository := 1%positive |}.

(** The relationship [children] of some parent entity, with the given
    cascade; its members are the children whose id is below 10. *)
Definition children (cascade : Z) : Relationship :=
  {| rel_ref := 1%positive;
     cascade := cascade;
     specification := ValueLessThanFilterSpecification "id" (VInt 10) |}.

(** A root aggregate at 1 and a relationship aggregate on it at 2, over
    a store that holds [stored]. *)
Definition state0 (cascade : Z) (stored : list Entity) : State World :=
  mkState
    (<[2%positive := RelationshipAggregate no_slots (Some 1%positive)
                       (Some (children cascade))]>
       (<[1%positive := RootAggregate no_slots child_root]> ∅))
    (mkWorld stored [])
    [].

End AggregateExamples.

(** ** The unit of work *)

Module UnitOfWork.

(** Modelled from the spec: [everest.repositories.uow] and
    [everest.repositories.state] are not among the sources, only their
    test [everest/tests/test_uow.py] is. Entities are tracked by object
    identity; the registry of the [EntityStateManager] maps each tracked
    entity to the unit of work it is registered with, its class, its
    state and its log of transitions. *)
Inductive ENTITY_STATES := NEW | CLEAN | DIRTY | DELETED.

#[global] Instance ENTITY_STATES_eq_dec : EqDecision ENTITY_STATES.
Proof. solve_decision. Defined.

Record EntityInfo := mkInfo {
  owner : positive;
  info_class : klass;
  state : ENTITY_STATES;
  transitions : list (ENTITY_STATES * ENTITY_STATES)
}.

(** Modelled from the spec: the table of legal transitions. *)
Inductive Transition := Legal | NoOp | Illegal.

Definition transition (from to : ENTITY_STATES) : Transition :=
  match from, to with
  | NEW, CLEAN => Legal | NEW, DIRTY => Legal
  | NEW, NEW => NoOp | NEW, DELETED => Legal
  | CLEAN, CLEAN => NoOp | CLEAN, DIRTY => Legal
  | CLEAN, NEW => Legal | CLEAN, DELETED => Legal
  | DIRTY, CLEAN => Legal | DIRTY, DIRTY => NoOp
  | DIRTY, NEW => Legal | DIRTY, DELETED => Legal
  | DELETED, CLEAN => Illegal | DELETED, DIRTY => Illegal
  | DELETED, NEW => Legal | DELETED, DELETED => NoOp
  end.

Section Registry.

Abbreviation Registry := (gmap positive EntityInfo).

(** Modelled from the spec: [EntityStateManager.get_state]; the
    exception and its message are those the test expects. *)
Definition get_state (entity : positive) : M Registry ENTITY_STATES :=
  fun reg =>
    match reg !! entity with
    | Some info => (Done (state info), reg)
    | None =>
        (Raise (ValueError
                  "Trying to get the state of an unregistered entity"), reg)
    end.

(** Modelled from the spec: [EntityStateManager.set_state] records the
    new state and appends the transition to the log of the entity. *)
Definition set_state (entity : positive) (new_state : ENTITY_STATES)
  : M Registry unit :=
  fun reg =>
    match reg !! entity with
    | Some info =>
        (Done tt,
         <[entity := mkInfo (owner info) (info_class info) new_state
                       (transitions info ++ [(state info, new_state)])]> reg)
    | None =>
        (Raise (ValueError "Trying to mark an unregistered entity"), reg)
    end.

(** Modelled from the spec: registration with the unit of work [uow] in
    an initial state. *)
Definition register (uow : positive) (initial : ENTITY_STATES)
    (entity_class : klass) (entity : positive) : M Registry unit :=
  fun reg =>
    match reg !! entity with
    | Some info =>
        if bool_decide (owner info = uow) then
          (Raise (ValueError
             "Trying to register an entity that is registered with this unit of work"),
           reg)
        else
          (Raise (ValueError
             "Trying to register an entity that has been registered with another unit of work"),
           reg)
    | None => (Done tt, <[entity := mkInfo uow entity_class initial []]> reg)
    end.

Definition register_new := fun uow => register uow NEW.
Definition register_clean := fun uow => register uow CLEAN.
Definition register_deleted := fun uow => register uow DELETED.

(** Modelled from the spec: [unregister]. *)
Definition unregister (uow : positive) (entity_class : klass)
    (entity : positive) : M Registry unit :=
  fun reg =>
    match reg !! entity with
    | Some info =>
        if bool_decide (owner info = uow) then (Done tt, delete entity reg)
        else
          (Raise (ValueError
             "Trying to unregister an entity that has been registered with another unit of work"),
           reg)
    | None =>
        (Raise (ValueError
           "Trying to unregister an entity that has not been registered"),
         reg)
    end.

(** Modelled from the spec: the [mark_*] operations, which follow the
    transition table. *)
Definition mark (target : ENTITY_STATES) (uow : positive) (entity : positive)
  : M Registry unit :=
  fun reg =>
    match reg !! entity with
    | None =>
        (Raise (ValueError "Trying to mark an unregistered entity"), reg)
    | Some info =>
        match transition (state info) target with
        | Illegal => (Raise (ValueError "Invalid state transition"), reg)
        | NoOp => (Done tt, reg)
        | Legal => set_state entity target reg
        end
    end.

Definition mark_new := mark NEW.
Definition mark_clean := mark CLEAN.
Definition mark_dirty := mark DIRTY.
Definition mark_deleted := mark DELETED.

(** Modelled from the spec: [is_marked_new] is [False] for an entity
    that is not registered. *)
Definition is_marked_new (uow : positive) (entity : positive)
  : M Registry bool :=
  fun reg =>
    match reg !! entity with
    | Some info => (Done (bool_decide (state info = NEW)), reg)
    | None => (Done false, reg)
    end.

(** Modelled from the spec: the bucket of [uow] for a class and a state. *)
Definition bucket (uow : positive) (st : ENTITY_STATES) (entity_class : klass)
    (reg : Registry) : list positive :=
  (map_to_list
     (filter (fun kv => owner kv.2 = uow /\ info_class kv.2 = entity_class
                        /\ state kv.2 = st) reg)).*1.

(** Modelled from the spec: [reset] empties the buckets of [uow]. *)
Definition reset (uow : positive) : M Registry unit :=
  modify_store (filter (fun kv : positive * EntityInfo => owner kv.2 <> uow)).

End Registry.

(** [msg.startswith(prefix)]. *)
Definition startswith (msg pre : string) : bool := String.prefix pre msg.

End UnitOfWork.

(** ** Vocabulary of the statements *)

Module AggregateSpec.
Import Aggregates.

Section Vocabulary.
Context {W Query : Type} `{Collaborators W Query}.

(** The filter specification in force on an aggregate: what its [filter]
    property returns. *)
Definition effective_filter (a : Aggregate) : option FilterSpecification :=
  match a with
  | RootAggregate s _ => _filter_spec s
  | RelationshipAggregate s _ (Some rel) =>
      Some (match _filter_spec s with
            | Some fs => create_conjunction (specification rel) fs
            | None => specification rel
            end)
  | RelationshipAggregate _ _ None => None
  end.

(** The root aggregate whose session an aggregate queries: itself, or
    for a relationship aggregate with both its attributes the root
    aggregate it refers to. *)
Definition backing (st : State W) (a : Aggregate) : option RootFields :=
  match a with
  | RootAggregate _ f => Some f
  | RelationshipAggregate _ (Some root) (Some _) =>
      match heap st !! root with
      | Some (RootAggregate _ f) => Some f
      | _ => None
      end
  | RelationshipAggregate _ _ _ => None
  end.

(** The lookup whose result [get_by_id] filters: the session and the
    query by id for a root aggregate, [get_by_id] of the root aggregate
    for a relationship aggregate. *)
Definition direct_lookup (a : Aggregate) (id_key : value)
  : M (State W) (option Entity) :=
  match a with
  | RootAggregate _ f => root_lookup_by_id f id_key
  | RelationshipAggregate _ (Some root) _ => root_get_by_id root id_key
  | RelationshipAggregate _ None _ => raise (AttributeError "_root_aggregate")
  end.

(** What is left of a found entity under a filter. *)
Definition visible_through (flt : option FilterSpecification) (ent : Entity)
  : option Entity :=
  match flt with
  | Some fs => if is_satisfied_by fs ent then Some ent else None
  | None => Some ent
  end.

(** Counting what the source query of [f] yields once [flt] is applied. *)
Definition filtered_count (f : RootFields) (flt : option FilterSpecification)
  : M W Z :=
  q ← session_query (_session_factory f) (entity_class_attr f);
  q ← match flt with
      | Some fs => filter_query (_expression_kind f) (entity_class_attr f) fs q
      | None => mret q
      end;
  query_count q.

End Vocabulary.

End AggregateSpec.

(** ** [CqlOrderSpecificationVisitor] *)

Module CqlOrder.

(** [CqlOrderExpression]: an attribute name and an operator name. *)
Record CqlOrderExpression := {
  attr_name : string;
  op_name : string
}.

(** [CqlOrderExpression._as_string]: the format ['%(attr)s:%(op)s']. *)
Definition _as_string (self : CqlOrderExpression) : string :=
  (attr_name self +:+ ":" +:+ op_name self)%string.

(** [attr_name.replace('_', '-')]. *)
Fixpoint __preprocess_attribute (attr_name : string) : string :=
  match attr_name with
  | EmptyString => EmptyString
  | String c rest =>
      String (if Ascii.eqb c "_" then "-"%char else c)
        (__preprocess_attribute rest)
  end.

Section Operators.
(** The names of [CQL_ORDER_OPERATORS.ASCENDING] and [DESCENDING], which
    are defined in [everest.querying.operators]. *)
Context (ASCENDING DESCENDING : string).

Definition _asc_op (spec_attr_name : string) : CqlOrderExpression :=
  {| attr_name := __preprocess_attribute spec_attr_name;
     op_name := ASCENDING |}.

Definition _desc_op (spec_attr_name : string) : CqlOrderExpression :=
  {| attr_name := __preprocess_attribute spec_attr_name;
     op_name := DESCENDING |}.

End Operators.

End CqlOrder.

(** ** Vocabulary for the SQL order visitor *)

Module SqlOrderSpec.
Import SqlOrder.

(** The criteria of an order specification from left to right: the
    attribute name and whether the criterion is descending. *)
Fixpoint criteria (spec : OrderSpecification) : list (string * bool) :=
  match spec with
  | AscendingOrderSpecification a => [(a, false)]
  | DescendingOrderSpecification a => [(a, true)]
  | ConjunctionOrderSpecification l r => criteria l ++ criteria r
  end.

Section Vocabulary.
Context {Join Column : Type} `{EqDecision Join}.

(** The column an attribute name stands for: the one of its order
    conditions if it has any, else the attribute of the mapped class. *)
Definition resolve (v : @SqlOrderSpecificationVisitor Join Column)
    (attr_name : string) : option Column :=
  match __order_conditions v !! attr_name with
  | Some c => Some (cond_attr c)
  | None => __klass v !! attr_name
  end.

(** The order expression of one criterion. *)
Definition order_expr (v : @SqlOrderSpecificationVisitor Join Column)
    (c : string * bool) : result (@OrderExpr Column) :=
  match resolve v c.1 with
  | Some col => Done (if c.2 then DescExpr col else AscExpr col)
  | None => Raise (AttributeError c.1)
  end.

(** The order expressions of the criteria, left to right. *)
Definition sql_exprs (v : @SqlOrderSpecificationVisitor Join Column)
    (spec : OrderSpecification) : result (list (@OrderExpr Column)) :=
  result_mapM (order_expr v) (criteria spec).

(** The join an attribute name brings in, if it has order conditions. *)
Definition join_of (v : @SqlOrderSpecificationVisitor Join Column)
    (attr_name : string) : option Join :=
  cond_join <$> __order_conditions v !! attr_name.

End Vocabulary.

End SqlOrderSpec.

Module SqlExamples.
Import SqlOrder.

(** A visitor on a class with the attributes [id] and [text], in which
    ordering by [parent] needs a join; joins and columns are named by
    strings. *)
Definition visitor : @SqlOrderSpecificationVisitor string string :=
  {| __klass := <["id" := "my_entity.id"]> (<["text" := "my_entity.text"]> ∅);
     __order_conditions :=
       <["parent" := {| cond_join := "parent"; cond_attr := "parent.text" |}]> ∅;
     __joins := 1%positive |}.

Definition heap0 : gmap positive (list string) := <[1%positive := []]> ∅.

Definition by_parent_then_id : OrderSpecification :=
  ConjunctionOrderSpecification
    (DescendingOrderSpecification "parent")
    (ConjunctionOrderSpecification
       (AscendingOrderSpecification "id")
       (AscendingOrderSpecification "parent")).

End SqlExamples.

(** ** Vocabulary for the key function order visitor *)

Module KeyFunctionSpec.

(** No entity is followed by one that belongs before it by the value of
    the attribute [a]: one with a smaller value, or with a larger value
    when [reverse] is set. *)
Definition ordered_by (a : string) (reverse : bool) (l : list Entity) : Prop :=
  forall (i : nat) (x y : Entity),
    l !! i = Some x -> l !! S i = Some y ->
    exists kx ky,
      getattr x a = Some kx /\ getattr y a = Some ky
      /\ (if reverse then value_ltb kx ky else value_ltb ky kx) = false.

End KeyFunctionSpec.

(** ** Making relationship aggregates, and more vocabulary *)

Module AggregateMore.
Import Aggregates AggregateSpec.

Section More.
Context {W Query : Type} `{Collaborators W Query}.

(** [RelationshipAggregate.__init__]: [Aggregate.__init__] sets the three
    settings to [None], then the two attributes are set. *)
Definition RelationshipAggregate__init__ (root_aggregate : loc)
    (relationship : Relationship) : Aggregate :=
  RelationshipAggregate
    {| _filter_spec := None; _order_spec := None; _slice_key := None |}
    (Some root_aggregate) (Some relationship).

(** [RootAggregate.make_relationship_aggregate]:
    [RelationshipAggregate(self, relationship)], a new object. *)
Definition make_relationship_aggregate (self : loc)
    (relationship : Relationship) : M (State W) loc :=
  alloc (RelationshipAggregate__init__ self relationship).

(** The query behind an iteration, on the world alone: the source query
    of [f], filtered by [flt], then ordered by [os], then sliced by [k],
    each step only if the setting is there. *)
Definition data_pipeline (f : RootFields) (flt : option FilterSpecification)
    (os : option OrderSpecification) (k : option slice) : M W Query :=
  q ← session_query (_session_factory f) (entity_class_attr f);
  q ← match flt with
      | Some fs => filter_query (_expression_kind f) (entity_class_attr f) fs q
      | None => mret q
      end;
  q ← match os with
      | Some o => order_query (_expression_kind f) (entity_class_attr f) o q
      | None => mret q
      end;
  match k with
  | Some k => query_slice q (start k) (stop k)
  | None => mret q
  end.

End More.

End AggregateMore.

(** ** The view for POST on a collection ([everest/views/postcollection.py]) *)

Module PostCollection.

Section View.
(** The collection resource the view works on ([self.context]), the
    member resources posted, URLs, statuses and responses are those of
    the framework around the view; [get] and [add] of the collection are
    taken as functions on its contents. *)
Context {Collection Member Url Status Response : Type}.
Context (member_name : Member -> string)
        (context_get : Collection -> string -> option Member)
        (context_add : Member -> Collection -> Collection)
        (_handle_conflict : string -> Response)
        (resource_to_url_member : Member -> Url)
        (resource_to_url_collection : Collection -> Url)
        (created_status : Status).

(** The data extracted from the request: a member, or a collection of
    members ([provides_member_resource] tells which). *)
Inductive Data :=
| MemberData (member : Member)
| CollectionData (members : list Member).

Definition provides_member_resource (data : Data) : bool :=
  match data with MemberData _ => true | CollectionData _ => false end.

(** [new_members]: [[data]] for a member, the members of [data] else. *)
Definition new_members (data : Data) : list Member :=
  match data with
  | MemberData m => [m]
  | CollectionData ms => ms
  end.

(** The [for] loop: it stops at the first new member whose name the
    collection already has, and adds the others as it goes. The name of
    the conflict, if any, comes with the collection as it is left. *)
Fixpoint add_new_members (members : list Member) (context : Collection)
  : option string * Collection :=
  match members with
  | [] => (None, context)
  | new_member :: rest =>
      match context_get context (member_name new_member) with
      | Some _ => (Some (member_name new_member), context)
      | None => add_new_members rest (context_add new_member context)
      end
  end.

(** What the view leaves behind: the response it returns and, when the
    members were created, the status and the [Location] header it sets on
    the response of the request. *)
Inductive Outcome :=
| Conflict (response : Response)
| Created (status : Status) (location : Url) (context_data : Data).

(** [PostCollectionView._process_request_data]. *)
Definition _process_request_data (data : Data) (context : Collection)
  : Outcome * Collection :=
  let member_was_posted := provides_member_resource data in
  match add_new_members (new_members data) context with
  | (Some name, context) => (Conflict (_handle_conflict name), context)
  | (None, context) =>
      let new_location :=
        match data with
        | MemberData m => resource_to_url_member m
        | CollectionData _ => resource_to_url_collection context
        end in
      (Created created_status new_location data, context)
  end.

(** Adding members one after the other. *)
Definition add_all (members : list Member) (context : Collection)
  : Collection :=
  foldl (fun c m => context_add m c) context members.

End View.

End PostCollection.

Module PostCollectionExamples.
Import PostCollection.

(** A collection kept as the list of its members' names. *)
Definition names_get (c : list string) (name : string) : option string :=
  if bool_decide (name ∈ c) then Some name else None.

Definition names_add (m : string) (c : list string) : list string :=
  c ++ [m].

End PostCollectionExamples.

(** * Properties *)

(** ** Properties of entity equality *)

Lemma issubclass_refl (c : klass) : issubclass c c = true.
Proof. unfold issubclass. apply bool_decide_eq_true. done. Qed.

Lemma value_eqb_eq (a b : value) : value_eqb a b = true <-> a = b.
Proof. unfold value_eqb. apply bool_decide_eq_true. Qed.

Lemma is_None_true (a : value) : is_None a = true <-> a = VNone.
Proof. destruct a; simpl; split; intros; congruence. Qed.

(** The method [__eq__] called directly: [e1.__eq__(e2)] is true exactly
    when [e2] is an instance of the class of [e1] (that class or a subclass
    of it), both ids are not [None] and the ids are equal; for an entity
    whose id is [None] the method answers false, whatever its argument. *)
Lemma entity_eq_spec (e1 e2 : Entity) :
  (__eq__ e1 e2 = true <->
     isinstance e2 (ent_class e1) = true
     /\ id e1 <> VNone /\ id e2 <> VNone /\ id e1 = id e2)
  /\ (id e1 = VNone -> __eq__ e1 e2 = false /\ __eq__ e1 e1 = false).
Proof.
  unfold __eq__. split.
  - rewrite !andb_true_iff, negb_true_iff, andb_false_iff,
      value_eqb_eq, <- !not_true_iff_false, !is_None_true.
    split.
    + intros [[Hi He] Hn]. repeat split; try assumption.
      * destruct Hn as [Hn | Hn]; [assumption | congruence].
      * destruct Hn as [Hn | Hn]; [congruence | assumption].
    + intros (Hi & H1 & H2 & He). repeat split; auto.
  - intros Hn. rewrite Hn. simpl.
    split; [destruct (id e2) | ]; simpl;
      rewrite ?andb_false_r; reflexivity.
Qed.

Lemma entity_eq_spec_witness :
  id EntityExamples.anon = VNone
  /\ __eq__ EntityExamples.anon EntityExamples.anon = false.
Proof.
  split; [reflexivity |].
  apply (entity_eq_spec EntityExamples.anon EntityExamples.anon).
  reflexivity.
Defined.

(** The method alone does not compare the concrete types: called on an
    instance of the base class with an instance of a subclass that has the
    same id, it answers true.  (The operator [==] asks the instance of the
    subclass first, see [eq_operator].) *)
Lemma entity_eq_not_same_type :
  ~ (forall e1 e2 : Entity,
       __eq__ e1 e2 = true <->
         ent_class e1 = ent_class e2
         /\ id e1 <> VNone /\ id e2 <> VNone /\ id e1 = id e2).
Proof.
  intros H.
  destruct (H EntityExamples.base1 EntityExamples.sub1) as [H1 _].
  assert (He : __eq__ EntityExamples.base1 EntityExamples.sub1 = true)
    by (vm_compute; reflexivity).
  destruct (H1 He) as [Hc _]. discriminate Hc.
Qed.


(** ** The unit of work *)

Section UnitOfWorkFacts.
Import UnitOfWork.

(** C1: for an entity registered with a unit of work and in state
    [DELETED], [mark_dirty] raises a [ValueError] whose message starts
    with "Invalid state transition" and leaves the registry (hence the
    state of the entity) as it was, while [mark_new] returns and the
    state of the entity is then [NEW]. *)
Theorem mark_on_deleted (reg : gmap positive EntityInfo)
    (uow entity : positive) (info : EntityInfo) :
  reg !! entity = Some info ->
  state info = DELETED ->
  (exists msg,
      mark_dirty uow entity reg = (Raise (ValueError msg), reg)
      /\ startswith msg "Invalid state transition" = true
      /\ fst (get_state entity reg) = Done DELETED)
  /\ (exists reg',
         mark_new uow entity reg = (Done tt, reg')
         /\ fst (get_state entity reg') = Done NEW).
Proof.
  intros Hreg Hst. split.
  - exists "Invalid state transition".
    unfold mark_dirty, mark, get_state. rewrite Hreg, Hst. simpl.
    repeat split; reflexivity.
  - unfold mark_new, mark, set_state, get_state. rewrite Hreg, Hst. simpl.
    eexists. split; [reflexivity |].
    simpl. rewrite lookup_insert_eq. reflexivity.
Qed.

Lemma mark_on_deleted_witness :
  let reg := (register_deleted 1%positive [] 5%positive ∅).2 in
  (exists msg,
      mark_dirty 1%positive 5%positive reg = (Raise (ValueError msg), reg)
      /\ startswith msg "Invalid state transition" = true
      /\ fst (get_state 5%positive reg) = Done DELETED)
  /\ (exists reg',
         mark_new 1%positive 5%positive reg = (Done tt, reg')
         /\ fst (get_state 5%positive reg') = Done NEW).
Proof.
  intros reg.
  apply (mark_on_deleted reg 1%positive 5%positive
           (mkInfo 1%positive [] DELETED [])); reflexivity.
Defined.

End UnitOfWorkFacts.

(** ** Aggregates *)

Section AggregateFacts.
Import Aggregates AggregateSpec.
Context {W Query : Type} `{Collaborators W Query}.

Ltac munfold :=
  unfold deref_root, attr, log, alloc, update_slots;
  unfold mbind, M_bind, mret, M_ret, raise, modify_store, liftW, deref.

(** Run the code in the goal one step further: reduce, use what is known
    of the heap, and case on the outcome of a collaborator. *)
Ltac mstep :=
  first
    [ progress simpl
    | progress munfold
    | match goal with
      | Hl : ?h !! ?l = _ |- context [?h !! ?l] => rewrite Hl
      | Hf : _filter_spec ?s = _ |- context [_filter_spec ?s] => rewrite Hf
      end
    | match goal with
      | |- context [let (_, _) := ?X in _] =>
          lazymatch X with
          | context [let (_, _) := _ in _] => fail
          | context [match _ with Some _ => _ | None => _ end] => fail
          | _ => destruct X as [[?|?|] ?] eqn:?
          end
      end ].

Ltac mrun := repeat mstep.

(** As [mrun], with case analysis on optional results and tests too. *)
Ltac mcases :=
  repeat first
    [ mstep
    | match goal with
      | |- context [match ?x with Some _ => _ | None => _ end] =>
          is_var x; destruct x
      | |- context [if ?b then _ else _] => destruct b eqn:?
      end ].

(** [count] runs the source query, applies the filter in force and
    counts; nothing else of the aggregate is read. *)
Lemma count_filtered (st : State W) (self : positive) (a : Aggregate)
    (f : RootFields) :
  heap st !! self = Some a ->
  backing st a = Some f ->
  count self st = liftW (filtered_count f (effective_filter a)) st.
Proof.
  destruct st as [h w t]. simpl. intros Hself Hback.
  unfold count, _get_filtered_query, query, _query_optimizer, _get_filter,
    expression_kind, entity_class, root_query, filtered_count.
  destruct a as [s f0 | s [root|] [rel|]]; simpl in Hback; try discriminate.
  - injection Hback as ->. 
    destruct (_filter_spec s) as [fs|] eqn:Hfs; mrun; reflexivity.
  - destruct (h !! root) as [[sr fr|]|] eqn:Hroot; try discriminate.
    injection Hback as ->.
    destruct (_filter_spec s) as [fs|] eqn:Hfs; mrun; reflexivity.
Qed.

Lemma effective_filter_with_slots (a : Aggregate) (s : Slots) :
  _filter_spec s = _filter_spec (slots_of a) ->
  effective_filter (with_slots a s) = effective_filter a.
Proof.
  intros Hs. destruct a as [s0 f | s0 root [rel|]]; simpl in *;
    rewrite ?Hs; reflexivity.
Qed.

(** Replacing the settings of [self] does not change which root
    aggregate backs it. *)
Lemma backing_with_slots (h : gmap positive Aggregate) (w : W)
    (t : list Event) (self : positive) (a b : Aggregate) (s : Slots)
    (f : RootFields) :
  h !! self = Some a ->
  backing (mkState h w t) a = Some f ->
  backing (mkState (<[self := b]> h) w t) (with_slots a s) = Some f.
Proof.
  intros Hself Hback.
  destruct a as [s0 f0 | s0 [root|] [rel|]]; simpl in *; try discriminate.
  - assumption.
  - destruct (decide (self = root)) as [-> | Hne].
    + rewrite Hself in Hback. discriminate.
    + rewrite lookup_insert_ne by assumption. assumption.
Qed.

Lemma update_slots_lookup (h : gmap positive Aggregate) (w : W)
    (t : list Event) (self : positive) (a : Aggregate) (g : Slots -> Slots) :
  h !! self = Some a ->
  update_slots self g (mkState h w t)
  = (Done tt, mkState (<[self := with_slots a (g (slots_of a))]> h) w t).
Proof. intros Hself. mrun. reflexivity. Qed.

Lemma slots_of_with_slots (a : Aggregate) (s : Slots) :
  slots_of (with_slots a s) = s.
Proof. destruct a; reflexivity. Qed.

Lemma with_slots_with_slots (a : Aggregate) (s s' : Slots) :
  with_slots (with_slots a s) s' = with_slots a s'.
Proof. destruct a; reflexivity. Qed.

(** C3: [count] returns the count of what the source query yields once
    the filter in force is applied, and changing the order specification
    and the slice key of the aggregate changes neither the number
    returned nor what counting does to the world. *)
Theorem count_ignores_order_and_slice (st : State W) (self : positive)
    (a : Aggregate) (f : RootFields)
    (o : option OrderSpecification) (k : option slice) :
  heap st !! self = Some a ->
  backing st a = Some f ->
  let st' := (_set_slice self k (_set_order self o st).2).2 in
  count self st = liftW (filtered_count f (effective_filter a)) st
  /\ (count self st').1 = (count self st).1
  /\ world (count self st').2 = world (count self st).2.
Proof.
  intros Hself Hback st'.
  pose proof (count_filtered st self a f Hself Hback) as Hc.
  split; [exact Hc |].
  destruct st as [h w t]. simpl in Hself.
  subst st'. unfold _set_order, _set_slice.
  rewrite (update_slots_lookup _ _ _ _ _ _ Hself). simpl.
  rewrite (update_slots_lookup _ _ _ _ _ _ (lookup_insert_eq _ _ _)).
  simpl. rewrite insert_insert_eq, with_slots_with_slots.
  rewrite slots_of_with_slots. simpl.
  erewrite (count_filtered _ self _ f);
    [ | simpl; apply lookup_insert_eq
      | apply backing_with_slots; eassumption ].
  rewrite effective_filter_with_slots by reflexivity.
  rewrite Hc. unfold liftW. simpl.
  destruct (filtered_count f (effective_filter a) w). split; reflexivity.
Qed.

Lemma ret_bind {S A B : Type} (a : A) (k : A -> M S B) (s : S) :
  (mret a ≫= k) s = k a s.
Proof. reflexivity. Qed.


Lemma deref_lookup (h : gmap positive Aggregate) (w : W) (t : list Event)
    (l : positive) (a : Aggregate) :
  h !! l = Some a -> deref l (mkState h w t) = (Done a, mkState h w t).
Proof. intros Hl. unfold deref. simpl. rewrite Hl. reflexivity. Qed.

Lemma deref_root_lookup (h : gmap positive Aggregate) (w : W)
    (t : list Event) (l : positive) (s : Slots) (f : RootFields) :
  h !! l = Some (RootAggregate s f) ->
  deref_root l (mkState h w t) = (Done (s, f), mkState h w t).
Proof. intros Hl. mrun. reflexivity. Qed.

Lemma bind_eq {S A B : Type} (m : M S A) (k : A -> M S B) (s : S) :
  (m ≫= k) s
  = match m s with
    | (Done a, s') => k a s'
    | (Raise e, s') => (Raise e, s')
    | (OutOfFuel, s') => (OutOfFuel, s')
    end.
Proof. reflexivity. Qed.



Lemma root_get_by_id_frame h w t (root : positive) (k : value) :
  exists w', (root_get_by_id root k (mkState h w t)).2 = mkState h w' t.
Proof.
  unfold root_get_by_id, root_lookup_by_id.
  destruct (h !! root) as [[sr fr | ? ? ?]|] eqn:Hroot;
    try destruct (_filter_spec sr) eqn:Hfs;
    mcases; eexists; reflexivity.
Qed.



#[local] Arguments root_add : simpl never.
#[local] Arguments root_remove : simpl never.
#[local] Arguments root_get_by_id : simpl never.
#[local] Arguments root_get_by_slug_at : simpl never.






#[local] Arguments root_lookup_by_id : simpl never.

Lemma root_get_by_slug_frame h w t (root : positive) (k : value) :
  exists w', (root_get_by_slug_at root k (mkState h w t)).2 = mkState h w' t.
Proof.
  unfold root_get_by_slug_at.
  destruct (h !! root) as [[sr fr | ? ? ?]|] eqn:Hroot;
    mcases; eexists; reflexivity.
Qed.

Lemma rel_check_filter_found (h : gmap positive Aggregate) (w : W)
    (t : list Event) (self : positive) (s : Slots)
    (root : option positive) (rel : Relationship) (ent : Entity) :
  h !! self = Some (RelationshipAggregate s root (Some rel)) ->
  (rel_check_filter self (Some ent) (mkState h w t)).1
  = Done (visible_through
            (effective_filter (RelationshipAggregate s root (Some rel))) ent).
Proof.
  intros Hself. unfold rel_check_filter, _get_filter.
  rewrite bind_eq, bind_eq, (deref_lookup _ _ _ _ _ Hself). simpl.
  destruct (_filter_spec s) as [fs|]; simpl;
    repeat match goal with |- context [is_satisfied_by ?f ?e] =>
      destruct (is_satisfied_by f e) end; reflexivity.
Qed.

(** C6: when the lookup behind [get_by_id] finds an entity, [get_by_id]
    returns [None] if the entity does not satisfy the filter in force and
    the entity if it does or if no filter is set; [get_by_slug] on a
    relationship aggregate treats what the root aggregate finds the same
    way. *)
Theorem lookup_heeds_filter (st : State W) (self : positive) (a : Aggregate)
    (f : RootFields) (id_key slug_key : value) (ent : Entity) :
  heap st !! self = Some a ->
  backing st a = Some f ->
  ((direct_lookup a id_key st).1 = Done (Some ent) ->
   (get_by_id self id_key st).1
   = Done (visible_through (effective_filter a) ent))
  /\ (forall s root rel,
        a = RelationshipAggregate s (Some root) rel ->
        (root_get_by_slug_at root slug_key st).1 = Done (Some ent) ->
        (get_by_slug self slug_key st).1
        = Done (visible_through (effective_filter a) ent)).
Proof.
  destruct st as [h w t]. simpl. intros Hself Hback. split.
  - intros Hfound. unfold get_by_id.
    rewrite bind_eq, (deref_lookup _ _ _ _ _ Hself).
    destruct a as [s f0 | s [root|] [rel|]]; simpl in Hback;
      try discriminate; simpl in Hfound |- *.
    + unfold root_get_by_id.
      rewrite bind_eq, (deref_root_lookup _ _ _ _ _ _ Hself). simpl.
      rewrite bind_eq.
      destruct (root_lookup_by_id f0 id_key _) as [r st2].
      simpl in Hfound. subst r.
      unfold visible_through.
      destruct (_filter_spec s) as [fs|]; [| reflexivity].
      destruct (is_satisfied_by fs ent); reflexivity.
    + unfold rel_get_by_id. simpl attr. rewrite ret_bind, bind_eq.
      destruct (root_get_by_id_frame h w t root id_key) as [w2 Hw2].
      destruct (root_get_by_id root id_key _) as [r st2].
      simpl in Hfound, Hw2. subst r st2.
      apply (rel_check_filter_found _ _ _ _ _ _ _ _ Hself).
  - intros s root rel -> Hfound. unfold get_by_slug.
    rewrite bind_eq, (deref_lookup _ _ _ _ _ Hself).
    destruct rel as [rel|]; simpl in Hback; try discriminate.
    unfold rel_get_by_slug. simpl attr. rewrite ret_bind, bind_eq.
    destruct (root_get_by_slug_frame h w t root slug_key) as [w2 Hw2].
    destruct (root_get_by_slug_at root slug_key _) as [r st2].
    simpl in Hfound, Hw2. subst r st2.
    apply (rel_check_filter_found _ _ _ _ _ _ _ _ Hself).
Qed.

Lemma slots_eta (s : Slots) :
  {| _filter_spec := _filter_spec s;
     _order_spec := _order_spec s;
     _slice_key := _slice_key s |} = s.
Proof. destruct s. reflexivity. Qed.

Lemma root_fields_eta (f : RootFields) :
  {| agg_class := agg_class f;
     _expression_kind := _expression_kind f;
     entity_class_attr := entity_class_attr f;
     _session_factory := _session_factory f;
     __repository := __repository f |} = f.
Proof. destruct f. reflexivity. Qed.

Lemma fresh_lookup (h : gmap positive Aggregate) :
  h !! fresh (dom h) = None.
Proof. apply not_elem_of_dom. apply is_fresh. Qed.

(** The clone of a root aggregate is a new object with the settings and
    the attributes of the original, and changing its settings leaves the
    original as it is. *)
Lemma root_clone_independent (st : State W) (self : positive) (s : Slots)
    (f : RootFields) (g : Slots -> Slots) :
  heap st !! self = Some (RootAggregate s f) ->
  exists c st1,
    clone self st = (Done c, st1)
    /\ c <> self
    /\ heap st1 !! c = Some (RootAggregate s f)
    /\ heap st1 !! self = Some (RootAggregate s f)
    /\ heap (update_slots c g st1).2 !! self = Some (RootAggregate s f)
    /\ heap (update_slots c g st1).2 !! c = Some (RootAggregate (g s) f).
Proof.
  destruct st as [h w t]. simpl. intros Hself.
  unfold clone. rewrite bind_eq, (deref_lookup _ _ _ _ _ Hself). simpl.
  rewrite slots_eta, root_fields_eta. unfold alloc. simpl.
  assert (Hne : fresh (dom h) <> self).
  { intros Heq. pose proof (fresh_lookup h) as Hf. rewrite Heq in Hf.
    congruence. }
  eexists _, _. split; [reflexivity |]. simpl.
  split; [exact Hne |].
  split; [apply lookup_insert_eq |].
  split; [rewrite lookup_insert_ne by exact Hne; exact Hself |].
  rewrite (update_slots_lookup _ _ _ _ _ _ (lookup_insert_eq _ _ _)). simpl.
  split; [rewrite !lookup_insert_ne by exact Hne; exact Hself |].
  apply lookup_insert_eq.
Qed.

(** C7 fails for relationship aggregates: their clone has the three
    settings of the original but neither [_root_aggregate] nor
    [_relationship], so asking it for its query, its entity class or its
    filter raises [AttributeError]. *)
Theorem rel_clone_loses_root (st : State W) (self : positive) (s : Slots)
    (root : option positive) (rel : option Relationship) :
  heap st !! self = Some (RelationshipAggregate s root rel) ->
  exists c st1,
    clone self st = (Done c, st1)
    /\ heap st1 !! c = Some (RelationshipAggregate s None None)
    /\ (query c st1).1 = Raise (AttributeError "_root_aggregate")
    /\ (entity_class c st1).1 = Raise (AttributeError "_root_aggregate")
    /\ (_get_filter c st1).1 = Raise (AttributeError "_relationship")
    /\ (count c st1).1 = Raise (AttributeError "_root_aggregate").
Proof.
  destruct st as [h w t]. simpl. intros Hself.
  unfold clone. rewrite bind_eq, (deref_lookup _ _ _ _ _ Hself). simpl.
  rewrite slots_eta. unfold alloc. simpl.
  eexists _, _. split; [reflexivity |]. simpl.
  pose proof (lookup_insert_eq h (fresh (dom h))
                (RelationshipAggregate s None None)) as Hc.
  split; [exact Hc |].
  unfold count, _get_filtered_query, query, entity_class, _get_filter.
  repeat split; rewrite !bind_eq, (deref_lookup _ _ _ _ _ Hc); reflexivity.
Qed.

End AggregateFacts.

Section AggregateWitnesses.
Import Aggregates AggregateSpec MemoryWorld AggregateExamples.

(** In the in-memory world a root aggregate counts the stored entities
    of its class that satisfy its filter, whatever its order and slice. *)
Lemma memory_count (h : gmap positive Aggregate) (w : World)
    (t : list Event) (self : positive) (s : Slots) (f : RootFields) :
  h !! self = Some (RootAggregate s f) ->
  (count self (mkState h w t)).1
  = Done (Z.of_nat (length
      (List.filter (fun e => match _filter_spec s with
                             | Some fs => is_satisfied_by fs e
                             | None => true
                             end)
         (List.filter (fun e => isinstance e (entity_class_attr f))
            (store w))))).
Proof.
  intros Hself.
  rewrite (count_filtered _ self _ f) by (simpl; first [exact Hself | reflexivity]).
  simpl. destruct (_filter_spec s); simpl; [reflexivity |].
  f_equal. f_equal. f_equal. symmetry.
  apply forallb_filter_id. apply forallb_forall. reflexivity.
Qed.

Lemma count_ignores_order_and_slice_witness :
  let st := state0 1 [child 1; child 20] in
  let st' :=
    (_set_slice 2%positive (Some {| start := Some 0; stop := Some 1 |})
       (_set_order 2%positive
          (Some (DescendingOrderSpecification "id")) st).2).2 in
  (count 2%positive st').1 = (count 2%positive st).1.
Proof.
  intros st st'.
  apply (count_ignores_order_and_slice st 2%positive
           (RelationshipAggregate no_slots (Some 1%positive)
              (Some (children 1)))
           child_root
           (Some (DescendingOrderSpecification "id"))
           (Some {| start := Some 0; stop := Some 1 |}));
    reflexivity.
Defined.




Lemma lookup_heeds_filter_witness :
  let st := state0 1 [child 20] in
  (get_by_id 2%positive (VInt 20) st).1 = Done None
  /\ (get_by_slug 2%positive (VStr "20") st).1 = Done None.
Proof.
  intros st.
  destruct (lookup_heeds_filter st 2%positive
              (RelationshipAggregate no_slots (Some 1%positive)
                 (Some (children 1)))
              child_root (VInt 20) (VStr "20") (child 20) eq_refl eq_refl)
    as [Hid Hslug].
  split.
  - apply Hid. reflexivity.
  - apply (Hslug no_slots 1%positive (Some (children 1)) eq_refl).
    reflexivity.
Defined.

Lemma rel_clone_loses_root_witness :
  let st := state0 1 [child 1] in
  exists c st1,
    clone 2%positive st = (Done c, st1)
    /\ heap st1 !! c = Some (RelationshipAggregate no_slots None None)
    /\ (query c st1).1 = Raise (AttributeError "_root_aggregate")
    /\ (entity_class c st1).1 = Raise (AttributeError "_root_aggregate")
    /\ (_get_filter c st1).1 = Raise (AttributeError "_relationship")
    /\ (count c st1).1 = Raise (AttributeError "_root_aggregate").
Proof.
  intros st.
  apply (rel_clone_loses_root st 2%positive no_slots (Some 1%positive)
           (Some (children 1))).
  reflexivity.
Defined.

End AggregateWitnesses.

(** ** The key function order visitor *)

Section KeyFunctionFacts.
Import KeyFunctionOrder OrderExamples.

(** Whatever the operands, the function built for a conjunction returns
    a list of two 1-tuples, each holding the result of one operand. *)
Lemma key_function_conjunction_shape (l r : OrderSpecification)
    (entities : list Entity) (out : pyobj) :
  visit (ConjunctionOrderSpecification l r) entities = Done out ->
  exists a b,
    visit l entities = Done a /\ visit r entities = Done b
    /\ out = PList [PTuple [a]; PTuple [b]].
Proof.
  simpl. unfold _conjunction_op. simpl. unfold mbind, result_bind.
  destruct (visit l entities) as [a|e|]; try discriminate.
  destruct (visit r entities) as [b|e|]; try discriminate.
  intros [= <-]. exists a, b. repeat split.
Qed.

Lemma key_function_conjunction_shape_witness :
  exists a b,
    visit (AscendingOrderSpecification "a") [p0; p1; p2] = Done a
    /\ visit (AscendingOrderSpecification "b") [p0; p1; p2] = Done b
    /\ PList [PTuple [PList (PEntity <$> [p1; p2; p0])];
              PTuple [PList (PEntity <$> [p0; p2; p1])]]
       = PList [PTuple [a]; PTuple [b]].
Proof.
  apply (key_function_conjunction_shape
           (AscendingOrderSpecification "a") (AscendingOrderSpecification "b")
           [p0; p1; p2]).
  vm_compute. reflexivity.
Defined.

(** The function built for a conjunction never returns a sequence of
    entities. *)
Lemma key_function_conjunction_not_entities (l r : OrderSpecification)
    (entities sequence : list Entity) :
  visit (ConjunctionOrderSpecification l r) entities
  <> Done (PList (PEntity <$> sequence)).
Proof.
  intros Hv.
  destruct (key_function_conjunction_shape _ _ _ _ Hv) as (a & b & _ & _ & Heq).
  destruct sequence as [|x sequence]; simpl in Heq; discriminate Heq.
Qed.

(** C8 fails on the code: for the conjunction of ascending [a] and
    ascending [b], the function applied to [p0; p1; p2] returns the two
    separately sorted lists, each wrapped in a 1-tuple, and not the
    entities in the order [p2; p1; p0] of [a] then [b]. *)
Theorem key_function_conjunction_example :
  visit by_a_then_b [p0; p1; p2]
  = Done (PList [PTuple [PList (PEntity <$> [p1; p2; p0])];
                 PTuple [PList (PEntity <$> [p0; p2; p1])]])
  /\ visit by_a_then_b [p0; p1; p2] <> Done (PList (PEntity <$> [p2; p1; p0])).
Proof.
  split.
  - vm_compute. reflexivity.
  - apply key_function_conjunction_not_entities.
Qed.

End KeyFunctionFacts.

(** ** The SQL order visitor *)

Section SqlOrderFacts.
Import SqlOrder.
Context {Join Column : Type} `{EqDecision Join}.

Abbreviation Visitor := (@SqlOrderSpecificationVisitor Join Column).

Lemma get_attr_joins_ok (v : Visitor) (attr_name : string)
    (h : gmap positive (list Join)) :
  joins_ok v h -> joins_ok v (__get_attr v attr_name h).2.
Proof.
  intros (js & Hjs & Hnd). unfold __get_attr.
  destruct (__order_conditions v !! attr_name) as [c|].
  - unfold mbind, M_bind, read_list, modify_store, mret, M_ret. rewrite Hjs.
    case_bool_decide as Hin; simpl.
    + exists js. split; assumption.
    + exists (js ++ [cond_join c])%list. split.
      * apply (lookup_insert_eq (M := gmap positive)).
      * apply NoDup_app. split; [assumption |].
        split; [| apply NoDup_singleton].
        intros x Hx Hx'. apply list_elem_of_singleton in Hx'. subst x.
        contradiction.
  - destruct (__klass v !! attr_name); simpl; exists js; split; assumption.
Qed.

Lemma visit_joins_ok (v : Visitor) (spec : OrderSpecification)
    (h : gmap positive (list Join)) :
  joins_ok v h -> joins_ok v (visit v spec h).2.
Proof.
  revert h. induction spec as [a | a | l IHl r IHr]; intros h Hok; simpl.
  - unfold _asc_op, mbind, M_bind.
    pose proof (get_attr_joins_ok v a h Hok) as Hok'.
    destruct (__get_attr v a h) as [[c|e|] h']; exact Hok'.
  - unfold _desc_op, mbind, M_bind.
    pose proof (get_attr_joins_ok v a h Hok) as Hok'.
    destruct (__get_attr v a h) as [[c|e|] h']; exact Hok'.
  - unfold mbind, M_bind.
    pose proof (IHl h Hok) as Hl.
    destruct (visit v l h) as [[le|e|] h1]; simpl in Hl; try exact Hl.
    pose proof (IHr h1 Hl) as Hr.
    destruct (visit v r h1) as [[re|e|] h2]; simpl in Hr; exact Hr.
Qed.

(** C10: after a visitor has been made and has visited any order
    specification trees, its join list has no duplicates, and [get_joins]
    returns a new list object that holds exactly the joins of the visitor
    and leaves the list of the visitor as it is; whatever is then stored
    in the returned list, the list of the visitor still holds the same
    joins and [get_joins] reports them again. *)
Theorem sql_joins_nodup_and_copied (klass : gmap string Column)
    (order_conditions : option (gmap string (@Conditions Join Column)))
    (specs : list OrderSpecification) (h0 : gmap positive (list Join)) :
  exists (v : Visitor) h1,
    __init__ klass order_conditions h0 = (Done v, h1)
    /\ let h2 := foldl (fun h spec => (visit v spec h).2) h1 specs in
       exists l h3 js,
         h2 !! __joins v = Some js
         /\ get_joins v h2 = (Done l, h3)
         /\ h2 !! l = None
         /\ l <> __joins v
         /\ h3 !! l = Some js
         /\ h3 !! __joins v = Some js
         /\ NoDup js
         /\ forall js' : list Join,
              exists l' h4,
                get_joins v (<[l := js']> h3) = (Done l', h4)
                /\ h4 !! l' = Some js
                /\ h4 !! __joins v = Some js.
Proof.
  pose (v := {| __klass := klass;
                __order_conditions :=
                  match order_conditions with None => ∅ | Some oc => oc end;
                __joins := fresh (dom h0) |} : Visitor).
  exists v, (<[fresh (dom h0) := []]> h0). split; [reflexivity |].
  intros h2.
  assert (Hok : joins_ok v h2).
  { subst h2.
    assert (Hok1 : joins_ok v (<[fresh (dom h0) := []]> h0)).
    { exists []. split; [apply (lookup_insert_eq (M := gmap positive)) | apply NoDup_nil_2]. }
    revert Hok1. generalize (<[fresh (dom h0) := []]> h0).
    induction specs as [|spec specs IH]; intros h Hh; simpl; [exact Hh |].
    apply IH. apply visit_joins_ok. exact Hh. }
  destruct Hok as (js & Hjs & Hnd).
  unfold get_joins, read_list, new_list, mbind, M_bind. rewrite Hjs.
  assert (Hfr : h2 !! fresh (dom h2) = None)
    by (apply not_elem_of_dom; apply is_fresh).
  assert (Hne : fresh (dom h2) <> __joins v).
  { intros Heq. rewrite Heq, Hjs in Hfr. discriminate Hfr. }
  assert (Hne' : forall m : gmap positive (list Join),
             m !! __joins v = Some js -> fresh (dom m) <> __joins v).
  { intros m Hm Heq. pose proof (is_fresh (dom m)) as Hf. rewrite Heq in Hf.
    apply Hf, elem_of_dom. exists js. exact Hm. }
  eexists _, _, js. split; [reflexivity |].
  split; [reflexivity |].
  split; [exact Hfr |].
  split; [exact Hne |].
  split; [apply (lookup_insert_eq (M := gmap positive)) |].
  split; [rewrite lookup_insert_ne by exact Hne; exact Hjs |].
  split; [exact Hnd |].
  intros js'. rewrite insert_insert_eq.
  assert (Hjs' : <[fresh (dom h2) := js']> h2 !! __joins v = Some js)
    by (rewrite lookup_insert_ne by exact Hne; exact Hjs).
  rewrite Hjs'.
  eexists _, _. split; [reflexivity |].
  split; [apply (lookup_insert_eq (M := gmap positive)) |].
  rewrite lookup_insert_ne by (apply Hne'; exact Hjs'). exact Hjs'.
Qed.

End SqlOrderFacts.

(** ** The bubble sorter *)

Section PyListFacts.
Context {A : Type}.

Lemma getitem_middle (p r : list A) (x : A) :
  getitem (p ++ x :: r) (Z.of_nat (length p)) = Done x.
Proof.
  unfold getitem, py_index. rewrite length_app. simpl length.
  replace ((0 <=? Z.of_nat (length p))
           && (Z.of_nat (length p) <? Z.of_nat (length p + S (length r))))
    with true by (symmetry; apply andb_true_iff; split;
                  [apply Z.leb_le | apply Z.ltb_lt]; lia).
  simpl. rewrite Nat2Z.id.
  rewrite (list_lookup_middle p r x (length p) eq_refl). reflexivity.
Qed.

Lemma setitem_middle (p r : list A) (x y : A) :
  setitem (p ++ x :: r) (Z.of_nat (length p)) y = Done (p ++ y :: r).
Proof.
  unfold setitem, py_index. rewrite length_app. simpl length.
  replace ((0 <=? Z.of_nat (length p))
           && (Z.of_nat (length p) <? Z.of_nat (length p + S (length r))))
    with true by (symmetry; apply andb_true_iff; split;
                  [apply Z.leb_le | apply Z.ltb_lt]; lia).
  simpl. rewrite Nat2Z.id.
  rewrite insert_app_r_alt by lia. rewrite Nat.sub_diag. reflexivity.
Qed.

End PyListFacts.

Section BubbleFacts.
Import Sorting SortingSpec.
Context {A : Type} (order : Order A).

Abbreviation ltb := (lt order).

Lemma split_loop_eq (fuel : nat) (lst : list A) (lo j : Z) :
  split_loop order fuel lst lo j
  = if lo <? j then
      match fuel with
      | O => OutOfFuel
      | S fuel' =>
          a ← getitem lst j;
          b ← getitem lst (j - 1);
          lst ← (if ltb a b then
                   temp ← getitem lst j;
                   v ← getitem lst (j - 1);
                   lst ← setitem lst j v;
                   setitem lst (j - 1) temp
                 else Done lst);
          split_loop order fuel' lst lo (j - 1)
      end
    else Done lst.
Proof. destruct fuel; reflexivity. Qed.

(** One turn of the loop, on the two elements it looks at. *)
Lemma split_loop_step (fuel : nat) (p r : list A) (x c : A) (lo : Z) :
  lo <= Z.of_nat (length p) ->
  split_loop order (S fuel) (p ++ x :: c :: r) lo (Z.of_nat (length p) + 1)
  = split_loop order fuel (p ++ bubble_step ltb x (c :: r)) lo
      (Z.of_nat (length p)).
Proof.
  intros Hlo. rewrite split_loop_eq.
  replace (lo <? Z.of_nat (length p) + 1) with true
    by (symmetry; apply Z.ltb_lt; lia).
  replace (Z.of_nat (length p) + 1 - 1) with (Z.of_nat (length p)) by lia.
  assert (Hj : Z.of_nat (length p) + 1 = Z.of_nat (length (p ++ [x])))
    by (rewrite length_app; simpl; lia).
  assert (Hc : getitem (p ++ x :: c :: r) (Z.of_nat (length p) + 1) = Done c).
  { rewrite Hj. rewrite (cons_middle x p (c :: r)), app_assoc.
    apply getitem_middle. }
  rewrite Hc, getitem_middle. simpl.
  destruct (ltb c x); simpl; [| reflexivity].
  assert (Hs : setitem (p ++ x :: c :: r) (Z.of_nat (length p) + 1) x
               = Done (p ++ x :: x :: r)).
  { rewrite Hj. rewrite (cons_middle x p (c :: r)), app_assoc.
    rewrite setitem_middle. rewrite <- app_assoc. reflexivity. }
  rewrite Hs. simpl. rewrite setitem_middle. reflexivity.
Qed.

Lemma bubble_step_cons (x : A) (acc : list A) :
  acc <> [] -> exists c r, bubble_step ltb x acc = c :: r.
Proof.
  destruct acc as [|m r]; [congruence |]. intros _. simpl.
  destruct (ltb m x); eauto.
Qed.

(** The loop of [_split], started at [j] with the part right of [j]
    already passed over, finishes the pass over the part left of it. *)
Lemma split_loop_pass (left : list A) :
  forall (fuel : nat) (pre right : list A) (c : A),
    (length left <= fuel)%nat ->
    split_loop order fuel (pre ++ left ++ c :: right)
      (Z.of_nat (length pre)) (Z.of_nat (length pre + length left))
    = Done (pre ++ foldr (bubble_step ltb) (c :: right) left).
Proof.
  induction left as [|x left IH] using rev_ind; intros fuel pre right c Hfuel.
  - simpl. rewrite Nat.add_0_r, split_loop_eq, Z.ltb_irrefl. reflexivity.
  - rewrite length_app in Hfuel. simpl in Hfuel.
    destruct fuel as [|fuel]; [lia |].
    rewrite foldr_app. cbn [foldr].
    replace (pre ++ (left ++ [x]) ++ c :: right)
      with ((pre ++ left) ++ x :: c :: right)
      by (rewrite <- !app_assoc; reflexivity).
    replace (Z.of_nat (length pre + length (left ++ [x])))
      with (Z.of_nat (length (pre ++ left)) + 1)
      by (rewrite !length_app; simpl; lia).
    rewrite split_loop_step by (rewrite length_app; lia).
    destruct (bubble_step_cons x (c :: right)) as (c' & r' & Hstep);
      [discriminate |].
    rewrite Hstep, <- app_assoc, length_app, Nat2Z.inj_add.
    rewrite <- Nat2Z.inj_add. apply IH. lia.
Qed.

Lemma bubble_step_app (x : A) (acc post : list A) :
  acc <> [] ->
  bubble_step ltb x (acc ++ post) = bubble_step ltb x acc ++ post.
Proof.
  destruct acc as [|m r]; [congruence |]. intros _. simpl.
  destruct (ltb m x); reflexivity.
Qed.

Lemma foldr_bubble_step_app (left acc post : list A) :
  acc <> [] ->
  foldr (bubble_step ltb) (acc ++ post) left
  = foldr (bubble_step ltb) acc left ++ post.
Proof.
  intros Hacc. induction left as [|x left IH]; simpl; [reflexivity |].
  rewrite IH. apply bubble_step_app.
  clear IH. destruct left as [|y left]; simpl; [exact Hacc |].
  intros Hnil.
  destruct (bubble_step_cons y (foldr (bubble_step ltb) acc left))
    as (c & r & Hc).
  - clear Hnil. induction left as [|z left IH]; simpl; [exact Hacc |].
    intros Hnil.
    destruct (foldr (bubble_step ltb) acc left) as [|m r]; simpl in Hnil;
      [discriminate | destruct (ltb m z); discriminate].
  - rewrite Hc in Hnil. discriminate.
Qed.

(** [_split] of the bubble sorter makes one pass over [lst[lo..hi]] and
    returns [lo + 1]. *)
Lemma split_pass (fuel : nat) (pre mid post : list A) :
  mid <> [] ->
  (length mid <= S fuel)%nat ->
  _split (SorterTemplate := BubbleSorter order) fuel (pre ++ mid ++ post)
    (Z.of_nat (length pre)) (Z.of_nat (length pre) + Z.of_nat (length mid) - 1)
  = Done (pre ++ bubble ltb mid ++ post, Z.of_nat (length pre) + 1).
Proof.
  intros Hmid Hfuel.
  destruct mid as [|c left _] using rev_ind; [congruence |].
  rewrite length_app in Hfuel |- *. simpl in Hfuel |- *.
  replace (Z.of_nat (length pre) + Z.of_nat (length left + 1) - 1)
    with (Z.of_nat (length pre + length left)) by lia.
  rewrite <- (app_assoc left [c] post). simpl app.
  rewrite split_loop_pass by lia. simpl.
  change (c :: post) with ([c] ++ post).
  rewrite (foldr_bubble_step_app left [c] post) by discriminate.
  unfold bubble. rewrite foldr_app. reflexivity.
Qed.

Lemma sort_eq `{SorterTemplate A} (fuel : nat) (lst : list A)
    (lo hi : option Z) :
  sort fuel lst lo hi
  = let lo := match lo with None => 0 | Some lo => lo end in
    let hi := match hi with
              | None => Z.of_nat (length lst) - 1
              | Some hi => hi
              end in
    if lo <? hi then
      match fuel with
      | O => OutOfFuel
      | S fuel' =>
          '(lst, s) ← _split fuel lst lo hi;
          lst ← sort fuel' lst (Some lo) (Some (s - 1));
          lst ← sort fuel' lst (Some s) (Some hi);
          _join lst lo s hi
      end
    else Done lst.
Proof. destruct fuel; reflexivity. Qed.

Lemma bubble_step_perm (x : A) (acc : list A) :
  Permutation (x :: acc) (bubble_step ltb x acc).
Proof.
  destruct acc as [|m r]; simpl; [reflexivity |].
  destruct (ltb m x); [apply perm_swap | reflexivity].
Qed.

Lemma bubble_perm (l : list A) : Permutation l (bubble ltb l).
Proof.
  unfold bubble. induction l as [|x l IH]; simpl; [reflexivity |].
  etransitivity; [apply perm_skip, IH | apply bubble_step_perm].
Qed.

Lemma bubble_length (l : list A) : length (bubble ltb l) = length l.
Proof. symmetry. apply Permutation_length, bubble_perm. Qed.

Lemma bubble_sort_perm (n : nat) (l : list A) :
  Permutation l (bubble_sort ltb n l).
Proof.
  revert l. induction n as [|n IH]; intros l; simpl; [reflexivity |].
  pose proof (bubble_perm l) as Hp.
  destruct (bubble ltb l) as [|m r].
  - exact Hp.
  - etransitivity; [exact Hp |]. apply perm_skip, IH.
Qed.

(** The bubble sorter on [lst[lo..hi]] runs the passes of
    [bubble_sort] on that part and leaves the rest as it is. *)
Lemma sort_passes (n : nat) :
  forall (fuel : nat) (pre mid post : list A),
    length mid = n ->
    (n <= fuel)%nat ->
    sort (H := BubbleSorter order) fuel (pre ++ mid ++ post)
      (Some (Z.of_nat (length pre)))
      (Some (Z.of_nat (length pre) + Z.of_nat (length mid) - 1))
    = Done (pre ++ bubble_sort ltb n mid ++ post).
Proof.
  induction n as [|n IH]; intros fuel pre mid post Hlen Hfuel.
  - destruct mid; [| discriminate]. rewrite sort_eq. simpl.
    match goal with
    | |- context [?a <? ?b] =>
        destruct (Z.ltb_spec a b) as [Hlt | Hge]; [lia | reflexivity]
    end.
  - rewrite sort_eq. cbv zeta.
    pose proof (bubble_length mid) as Hbl.
    simpl bubble_sort.
    destruct (bubble ltb mid) as [|m r] eqn:Hb;
      [simpl in Hbl; lia |].
    simpl in Hbl.
    destruct (Z.ltb_spec (Z.of_nat (length pre))
                (Z.of_nat (length pre) + Z.of_nat (length mid) - 1))
      as [Hlt | Hge].
    + destruct fuel as [|fuel]; [lia |].
      rewrite split_pass by (try lia; intros ->; simpl in *; lia).
      rewrite Hb. simpl.
      rewrite sort_eq. cbv zeta.
      match goal with
      | |- context [?a <? ?a + 1 - 1] =>
          destruct (Z.ltb_spec a (a + 1 - 1)) as [Hlt' | _]; [lia |]
      end.
      simpl.
      replace (pre ++ m :: r ++ post) with ((pre ++ [m]) ++ r ++ post)
        by (rewrite <- app_assoc; reflexivity).
      replace (Z.of_nat (length pre) + 1)
        with (Z.of_nat (length (pre ++ [m])))
        by (rewrite length_app; simpl; lia).
      replace (Z.of_nat (length pre) + Z.of_nat (length mid) - 1)
        with (Z.of_nat (length (pre ++ [m])) + Z.of_nat (length r) - 1)
        by (rewrite length_app; simpl; lia).
      rewrite IH by lia. simpl. rewrite <- app_assoc. reflexivity.
    + assert (Hr : r = []) by (destruct r; [reflexivity | simpl in *; lia]).
      subst r.
      assert (Hm : mid = [m]).
      { pose proof (bubble_perm mid) as Hp. rewrite Hb in Hp.
        apply Permutation_length_1_inv. symmetry. exact Hp. }
      subst mid. destruct n; reflexivity.
Qed.

Lemma bubble_settled (Hasym : asymmetric ltb) (l : list A) :
  forall m r, bubble ltb l = m :: r -> settled ltb m r.
Proof.
  unfold bubble. induction l as [|x l IH]; intros m r Hb; [discriminate |].
  simpl in Hb. destruct (foldr (bubble_step ltb) [] l) as [|m0 r0].
  - injection Hb as <- <-. intros pre c post Heq.
    destruct pre; discriminate Heq.
  - specialize (IH m0 r0 eq_refl). simpl in Hb.
    destruct (ltb m0 x) eqn:Hmx; injection Hb as <- <-;
      intros pre c post Heq; destruct pre as [|y pre];
      simpl in Heq; injection Heq as Hh Ht.
    + subst c. left. apply Hasym. exact Hmx.
    + destruct (IH pre c post Ht) as [Hc | (z & Hz & Hc)];
        [left; exact Hc |].
      right. exists z. split; [apply list_elem_of_further; exact Hz | exact Hc].
    + subst c. left. exact Hmx.
    + subst y.
      destruct (IH pre c post Ht) as [Hc | (z & Hz & Hc)].
      * right. exists m0. split; [apply list_elem_of_here | exact Hc].
      * right. exists z.
        split; [apply list_elem_of_further; exact Hz | exact Hc].
Qed.

(** The element a pass brings to the front was less than everything it
    went past. *)
Lemma bubble_head_origin (l : list A) :
  forall m r,
    bubble ltb l = m :: r ->
    exists pre post,
      l = pre ++ m :: post /\ forall x, x ∈ pre -> ltb m x = true.
Proof.
  unfold bubble. induction l as [|x l IH]; intros m r Hb; [discriminate |].
  simpl in Hb. destruct (foldr (bubble_step ltb) [] l) as [|m0 r0].
  - injection Hb as <- <-. exists [], l. split; [reflexivity |].
    intros y Hy. inversion Hy.
  - destruct (IH m0 r0 eq_refl) as (pre & post & -> & Hpre). simpl in Hb.
    destruct (ltb m0 x) eqn:Hmx; injection Hb as <- <-.
    + exists (x :: pre), post. split; [reflexivity |].
      intros y Hy. apply elem_of_cons in Hy as [-> | Hy]; auto.
    + exists [], (pre ++ m0 :: post). split; [reflexivity |].
      intros y Hy. inversion Hy.
Qed.

Lemma bubble_head_after (Hasym : asymmetric ltb) (l r r' : list A)
    (m m' : A) :
  bubble ltb l = m :: r ->
  bubble ltb r = m' :: r' ->
  ltb m' m = false.
Proof.
  intros Hl Hr.
  pose proof (bubble_settled Hasym l m r Hl) as Hs.
  destruct (bubble_head_origin r m' r' Hr) as (pre & post & -> & Hpre).
  destruct (Hs pre m' post eq_refl) as [Hm | (x & Hx & Hm)]; [exact Hm |].
  rewrite (Hpre x Hx) in Hm. discriminate.
Qed.

Lemma bubble_sort_sorted (Hasym : asymmetric ltb) (n : nat) :
  forall l,
    length l = n ->
    Sorted (fun x y => ltb y x = false) (bubble_sort ltb n l).
Proof.
  induction n as [|n IH]; intros l Hlen.
  - destruct l; [constructor | discriminate].
  - simpl. pose proof (bubble_length l) as Hbl.
    destruct (bubble ltb l) as [|m r] eqn:Hb; [constructor |].
    simpl in Hbl. constructor; [apply IH; lia |].
    destruct n as [|n]; simpl.
    + destruct r; [constructor | simpl in *; lia].
    + pose proof (bubble_length r) as Hbr.
      destruct (bubble ltb r) as [|m' r'] eqn:Hb'; constructor.
      exact (bubble_head_after Hasym l r r' m m' Hb Hb').
Qed.

Lemma Sorted_adjacent (R : A -> A -> Prop) (l : list A) :
  Sorted R l ->
  forall (i : nat) (x y : A),
    l !! i = Some x -> l !! S i = Some y -> R x y.
Proof.
  induction 1 as [|a l Hs IH Hhd]; intros i x y Hx Hy; [discriminate |].
  destruct i as [|i]; simpl in Hx, Hy.
  - injection Hx as ->. destruct Hhd as [|b l Hab]; [discriminate |].
    simpl in Hy. injection Hy as ->. exact Hab.
  - exact (IH i x y Hx Hy).
Qed.

(** C9: for an order whose [lt] is a strict comparison (it never holds
    both ways), [BubbleSorter(order).sort(lst)] returns as soon as the
    fuel covers the length of the list, and leaves a permutation of the
    list in which no element is less than the one before it. *)
Theorem bubble_sorter_sorts (lst : list A) :
  asymmetric ltb ->
  exists lst',
    (forall fuel, (length lst <= fuel)%nat ->
       sort (H := BubbleSorter order) fuel lst None None = Done lst')
    /\ Permutation lst lst'
    /\ adjacent_sorted ltb lst'.
Proof.
  intros Hasym. exists (bubble_sort ltb (length lst) lst).
  split; [| split].
  - intros fuel Hfuel.
    pose proof (sort_passes (length lst) fuel [] lst [] eq_refl Hfuel) as Hs.
    simpl in Hs. rewrite !app_nil_r in Hs. rewrite <- Hs.
    rewrite (sort_eq fuel lst None None), (sort_eq fuel lst (Some 0)).
    cbv zeta. replace (0 + Z.of_nat (length lst) - 1)
      with (Z.of_nat (length lst) - 1) by lia.
    reflexivity.
  - apply bubble_sort_perm.
  - intros i x y Hx Hy.
    exact (Sorted_adjacent _ _ (bubble_sort_sorted Hasym _ lst eq_refl)
             i x y Hx Hy).
Qed.

End BubbleFacts.

Section BubbleWitnesses.
Import Sorting SortingSpec SortingExamples.

Lemma bubble_sorter_sorts_witness :
  exists lst',
    (forall fuel, (length [3; 1; 4; 2] <= fuel)%nat ->
       sort (H := BubbleSorter Z_order) fuel [3; 1; 4; 2] None None
       = Done lst')
    /\ Permutation [3; 1; 4; 2] lst'
    /\ adjacent_sorted (lt Z_order) lst'.
Proof.
  apply (bubble_sorter_sorts Z_order [3; 1; 4; 2]).
  intros x y Hxy. simpl in *.
  apply Z.ltb_lt in Hxy. apply Z.ltb_ge. lia.
Defined.

End BubbleWitnesses.

(** ** More on entities *)

Section EntityOrderFacts.

Lemma issubclass_true (a b : klass) :
  issubclass a b = true <-> b `suffix_of` a.
Proof. unfold issubclass. apply bool_decide_eq_true. Qed.

Lemma entity_eq_true (e1 e2 : Entity) :
  __eq__ e1 e2 = true <->
    ent_class e1 `suffix_of` ent_class e2
    /\ id e1 = id e2 /\ id e1 <> VNone.
Proof.
  unfold __eq__, isinstance.
  rewrite !andb_true_iff, negb_true_iff, issubclass_true, value_eqb_eq.
  split.
  - intros [[Hs He] Hn]. repeat split; try assumption.
    intros Hnone. rewrite <- He, Hnone in Hn. discriminate Hn.
  - intros (Hs & He & Hn). repeat split; try assumption.
    destruct (id e1); [congruence | reflexivity | reflexivity].
Qed.

Lemma eq_operator_true (e1 e2 : Entity) :
  eq_operator e1 e2 = true <->
    ent_class e1 = ent_class e2 /\ id e1 = id e2 /\ id e1 <> VNone.
Proof.
  unfold eq_operator, asks_right_first.
  destruct (decide (ent_class e1 = ent_class e2)) as [Hc | Hc].
  - rewrite (bool_decide_eq_true_2 _ Hc). cbn [negb andb].
    rewrite entity_eq_true. split.
    + intros (_ & He & Hn). auto.
    + intros (_ & He & Hn). rewrite Hc. auto.
  - rewrite (bool_decide_eq_false_2 _ Hc). cbn [negb andb].
    destruct (issubclass (ent_class e2) (ent_class e1)) eqn:Hs.
    + apply issubclass_true in Hs. rewrite entity_eq_true. split.
      * intros (Hs' & _ & _). exfalso. apply Hc.
        apply (anti_symm suffix); assumption.
      * intros (Hc' & _). contradiction.
    + rewrite entity_eq_true. split.
      * intros (Hs' & _ & _). apply issubclass_true in Hs'. congruence.
      * intros (Hc' & _). contradiction.
Qed.

(** C2: [e1 == e2] is true exactly when the two entities are of the same
    concrete class, both ids are not [None] and the ids are equal; an
    entity whose id is [None] is equal to no entity, itself included (in
    particular to no entity whose id is [None] as well). *)
Theorem entity_eq_operator_spec (e1 e2 : Entity) :
  (eq_operator e1 e2 = true <->
     ent_class e1 = ent_class e2
     /\ id e1 <> VNone /\ id e2 <> VNone /\ id e1 = id e2)
  /\ (id e1 = VNone ->
      eq_operator e1 e2 = false /\ eq_operator e1 e1 = false).
Proof.
  split.
  - rewrite eq_operator_true. split.
    + intros (Hc & He & Hn). repeat split; congruence.
    + intros (Hc & Hn & _ & He). auto.
  - intros Hn. split; apply not_true_is_false; rewrite eq_operator_true;
      intros (_ & _ & Hn'); contradiction.
Qed.

Lemma entity_eq_operator_spec_witness :
  id EntityExamples.anon = VNone
  /\ eq_operator EntityExamples.anon EntityExamples.sub1 = false
  /\ eq_operator EntityExamples.anon EntityExamples.anon = false.
Proof.
  split; [reflexivity |].
  apply (entity_eq_operator_spec EntityExamples.anon EntityExamples.sub1).
  reflexivity.
Defined.

(** The operator [==] on entities is symmetric and transitive, and [!=]
    is its negation. *)
Theorem eq_operator_sym_trans (e1 e2 e3 : Entity) :
  eq_operator e1 e2 = eq_operator e2 e1
  /\ ne_operator e1 e2 = negb (eq_operator e1 e2)
  /\ (eq_operator e1 e2 = true -> eq_operator e2 e3 = true ->
      eq_operator e1 e3 = true).
Proof.
  split; [| split].
  - apply eq_true_iff_eq. rewrite !eq_operator_true. split.
    + intros (Hc & He & Hn). repeat split; congruence.
    + intros (Hc & He & Hn). repeat split; congruence.
  - unfold ne_operator, eq_operator, __ne__.
    destruct (asks_right_first e1 e2); reflexivity.
  - rewrite !eq_operator_true.
    intros (Hc12 & He12 & Hn) (Hc23 & He23 & _).
    repeat split; congruence.
Qed.

Lemma eq_operator_sym_trans_witness :
  eq_operator EntityExamples.base1 EntityExamples.base1_text = true
  /\ eq_operator EntityExamples.base1_text EntityExamples.base1 = true
  /\ eq_operator EntityExamples.base1 EntityExamples.base1 = true.
Proof.
  assert (H12 : eq_operator EntityExamples.base1 EntityExamples.base1_text
                = true) by (vm_compute; reflexivity).
  assert (H21 : eq_operator EntityExamples.base1_text EntityExamples.base1
                = true) by (vm_compute; reflexivity).
  split; [exact H12 | split; [exact H21 |]].
  apply (eq_operator_sym_trans EntityExamples.base1
           EntityExamples.base1_text EntityExamples.base1); assumption.
Defined.

(** Two entities are equal in both directions exactly when they are of
    the same class and carry the same id, which is not [None]; so
    equality is symmetric within a class, and an entity equals itself
    exactly when it has an id. *)
Theorem entity_eq_both_ways (e1 e2 : Entity) :
  (__eq__ e1 e2 = true /\ __eq__ e2 e1 = true <->
     ent_class e1 = ent_class e2 /\ id e1 = id e2 /\ id e1 <> VNone)
  /\ (__eq__ e1 e1 = true <-> id e1 <> VNone).
Proof.
  rewrite !entity_eq_true. split; split.
  - intros [(Hs12 & He & Hn) (Hs21 & _ & _)].
    repeat split; try assumption.
    apply (anti_symm suffix); assumption.
  - intros (Hc & He & Hn). rewrite Hc, <- He.
    repeat split; try reflexivity; assumption.
  - intros (_ & _ & Hn). exact Hn.
  - intros Hn. repeat split; [reflexivity | assumption].
Qed.

(** The slug is [None] exactly when the id is, and entities with
    integer ids and the same slug have the same id. *)
Theorem slug_of_id (e1 e2 : Entity) :
  (slug e1 = VNone <-> id e1 = VNone)
  /\ (forall z1 z2,
        id e1 = VInt z1 -> id e2 = VInt z2 -> slug e1 = slug e2 -> z1 = z2).
Proof.
  unfold slug. split.
  - destruct (id e1); split; intros Hx; congruence.
  - intros z1 z2 -> -> [= Hp]. exact (inj pretty _ _ Hp).
Qed.

Lemma slug_of_id_witness :
  slug EntityExamples.base1 = slug EntityExamples.sub1 /\ 1 = 1.
Proof.
  split; [reflexivity |].
  apply (slug_of_id EntityExamples.base1 EntityExamples.sub1); reflexivity.
Defined.

End EntityOrderFacts.

(** ** More on the bubble sorter *)

Section BubbleMoreFacts.
Import Sorting SortingSpec.
Context {A : Type} (order : Order A).

Abbreviation ltb' := (lt order).

(** [sort(lst)] with the default bounds runs the passes of
    [bubble_sort] on the whole list. *)
Lemma sort_whole (fuel : nat) (lst : list A) :
  (length lst <= fuel)%nat ->
  sort (H := BubbleSorter order) fuel lst None None
  = Done (bubble_sort ltb' (length lst) lst).
Proof.
  intros Hfuel.
  pose proof (sort_passes order (length lst) fuel [] lst [] eq_refl Hfuel)
    as Hs.
  simpl in Hs. rewrite !app_nil_r in Hs. rewrite <- Hs.
  rewrite (sort_eq fuel lst None None), (sort_eq fuel lst (Some 0)).
  cbv zeta. replace (0 + Z.of_nat (length lst) - 1)
    with (Z.of_nat (length lst) - 1) by lia.
  reflexivity.
Qed.

(** [sort(lst, lo, hi)] sorts the part [lst[lo..hi]] in place: that part
    becomes a permutation of itself with no element less than the one
    before it, and the elements before [lo] and after [hi] stay where
    they are. *)
Theorem sort_range (fuel : nat) (pre mid post : list A) :
  asymmetric ltb' ->
  (length mid <= fuel)%nat ->
  exists mid',
    sort (H := BubbleSorter order) fuel (pre ++ mid ++ post)
      (Some (Z.of_nat (length pre)))
      (Some (Z.of_nat (length pre) + Z.of_nat (length mid) - 1))
    = Done (pre ++ mid' ++ post)
    /\ Permutation mid mid'
    /\ adjacent_sorted ltb' mid'.
Proof.
  intros Hasym Hfuel. exists (bubble_sort ltb' (length mid) mid).
  split; [| split].
  - apply sort_passes; [reflexivity | exact Hfuel].
  - apply bubble_sort_perm.
  - intros i x y Hx Hy.
    exact (Sorted_adjacent _ _
             (bubble_sort_sorted order Hasym _ mid eq_refl) i x y Hx Hy).
Qed.

Lemma adjacent_sorted_tail (x : A) (l : list A) :
  adjacent_sorted ltb' (x :: l) -> adjacent_sorted ltb' l.
Proof. intros Hs i a b Ha Hb. exact (Hs (S i) a b Ha Hb). Qed.

(** A pass over a list in which no element is less than the one before
    it swaps nothing. *)
Lemma bubble_sorted_id (l : list A) :
  adjacent_sorted ltb' l -> bubble ltb' l = l.
Proof.
  unfold bubble. induction l as [|x l IH]; intros Hs; [reflexivity |].
  simpl. rewrite (IH (adjacent_sorted_tail x l Hs)).
  destruct l as [|y l]; [reflexivity |]. simpl.
  rewrite (Hs 0%nat x y eq_refl eq_refl). reflexivity.
Qed.

Lemma bubble_sort_sorted_id (n : nat) (l : list A) :
  adjacent_sorted ltb' l -> bubble_sort ltb' n l = l.
Proof.
  revert l. induction n as [|n IH]; intros l Hs; [reflexivity |].
  simpl. rewrite (bubble_sorted_id l Hs).
  destruct l as [|m r]; [reflexivity |].
  rewrite (IH r (adjacent_sorted_tail m r Hs)). reflexivity.
Qed.

(** Sorting a list in which no element is less than the one before it
    leaves the list as it is, whatever [lt] is. *)
Theorem sort_sorted_unchanged (fuel : nat) (lst : list A) :
  adjacent_sorted ltb' lst ->
  (length lst <= fuel)%nat ->
  sort (H := BubbleSorter order) fuel lst None None = Done lst.
Proof.
  intros Hs Hfuel. rewrite (sort_whole fuel lst Hfuel).
  rewrite (bubble_sort_sorted_id _ lst Hs). reflexivity.
Qed.

(** Sorting twice gives what sorting once gives. *)
Theorem sort_idempotent (fuel : nat) (lst : list A) :
  asymmetric ltb' ->
  (length lst <= fuel)%nat ->
  exists lst',
    sort (H := BubbleSorter order) fuel lst None None = Done lst'
    /\ sort (H := BubbleSorter order) fuel lst' None None = Done lst'.
Proof.
  intros Hasym Hfuel. exists (bubble_sort ltb' (length lst) lst).
  split; [apply sort_whole; exact Hfuel |].
  rewrite sort_whole
    by (rewrite <- (Permutation_length (bubble_sort_perm order _ lst));
        exact Hfuel).
  rewrite bubble_sort_sorted_id; [reflexivity |].
  intros i x y Hx Hy.
  exact (Sorted_adjacent _ _
           (bubble_sort_sorted order Hasym _ lst eq_refl) i x y Hx Hy).
Qed.

Lemma getitem_beyond (lst : list A) (i : Z) :
  Z.of_nat (length lst) <= i -> getitem lst i = Raise IndexError.
Proof.
  intros Hi. unfold getitem, py_index.
  destruct (Z.ltb_spec i (Z.of_nat (length lst))) as [Hin | _]; [lia |].
  destruct (Z.ltb_spec i 0) as [Hneg | _]; [lia |].
  rewrite !andb_false_r. reflexivity.
Qed.

(** With [lo < hi] and [hi] beyond the last index, the first comparison
    of the first pass reads [lst[hi]] and raises [IndexError]. *)
Theorem sort_index_error (fuel : nat) (lst : list A) (lo hi : Z) :
  lo < hi ->
  Z.of_nat (length lst) <= hi ->
  sort (H := BubbleSorter order) (S fuel) lst (Some lo) (Some hi)
  = Raise IndexError.
Proof.
  intros Hlt Hhi. rewrite sort_eq. cbv zeta.
  destruct (Z.ltb_spec lo hi) as [_ | Hge]; [| lia].
  change (_split (S fuel) lst lo hi)
    with (lst' ← split_loop order (S fuel) lst lo hi; Done (lst', lo + 1)).
  rewrite split_loop_eq.
  destruct (Z.ltb_spec lo hi) as [_ | Hge]; [| lia].
  rewrite (getitem_beyond lst hi Hhi). reflexivity.
Qed.

Lemma bubble_step_filter (P : A -> bool) (x : A) (acc : list A) :
  (forall a b, ltb' a b = true -> P a = true -> P b = true -> False) ->
  List.filter P (bubble_step ltb' x acc) = List.filter P (x :: acc).
Proof.
  intros HP. destruct acc as [|m r]; [reflexivity |]. simpl.
  destruct (ltb' m x) eqn:Hmx; [| reflexivity]. simpl.
  destruct (P m) eqn:Hm, (P x) eqn:Hx; try reflexivity.
  destruct (HP m x Hmx Hm Hx).
Qed.

Lemma bubble_filter (P : A -> bool) (l : list A) :
  (forall a b, ltb' a b = true -> P a = true -> P b = true -> False) ->
  List.filter P (bubble ltb' l) = List.filter P l.
Proof.
  intros HP. unfold bubble. induction l as [|x l IH]; [reflexivity |].
  simpl foldr. rewrite (bubble_step_filter P x _ HP). simpl.
  rewrite IH. reflexivity.
Qed.

Lemma bubble_sort_filter (P : A -> bool) (n : nat) (l : list A) :
  (forall a b, ltb' a b = true -> P a = true -> P b = true -> False) ->
  List.filter P (bubble_sort ltb' n l) = List.filter P l.
Proof.
  intros HP. revert l. induction n as [|n IH]; intros l; [reflexivity |].
  simpl. rewrite <- (bubble_filter P l HP).
  destruct (bubble ltb' l) as [|m r]; [reflexivity |].
  simpl. rewrite (IH r). reflexivity.
Qed.

(** The bubble sorter is stable: the elements of any class [P] no two
    members of which are in the relation [lt] come out in the order they
    went in. *)
Theorem sort_stable (P : A -> bool) (fuel : nat) (lst : list A) :
  (forall a b, ltb' a b = true -> P a = true -> P b = true -> False) ->
  (length lst <= fuel)%nat ->
  exists lst',
    sort (H := BubbleSorter order) fuel lst None None = Done lst'
    /\ List.filter P lst' = List.filter P lst.
Proof.
  intros HP Hfuel. exists (bubble_sort ltb' (length lst) lst).
  split; [apply sort_whole; exact Hfuel |].
  apply bubble_sort_filter. exact HP.
Qed.

End BubbleMoreFacts.

Section BubbleMoreWitnesses.
Import Sorting SortingSpec SortingExamples.

Lemma Z_order_asymmetric : asymmetric (lt Z_order).
Proof.
  intros x y Hxy. simpl in *. apply Z.ltb_lt in Hxy. apply Z.ltb_ge. lia.
Qed.

Lemma sort_range_witness :
  exists mid',
    sort (H := BubbleSorter Z_order) 3 ([9] ++ [3; 1; 2] ++ [0])
      (Some (Z.of_nat (length [9])))
      (Some (Z.of_nat (length [9]) + Z.of_nat (length [3; 1; 2]) - 1))
    = Done ([9] ++ mid' ++ [0])
    /\ Permutation [3; 1; 2] mid'
    /\ adjacent_sorted (lt Z_order) mid'.
Proof.
  apply (sort_range Z_order 3 [9] [3; 1; 2] [0]).
  - exact Z_order_asymmetric.
  - simpl. lia.
Defined.

Lemma sort_sorted_unchanged_witness :
  sort (H := BubbleSorter Z_order) 3 [1; 2; 3] None None = Done [1; 2; 3].
Proof.
  apply (sort_sorted_unchanged Z_order 3 [1; 2; 3]).
  - intros i x y.
    destruct i as [|[|[|i]]]; simpl; intros Hx Hy;
      try discriminate Hy;
      injection Hx as <-; injection Hy as <-; reflexivity.
  - simpl. lia.
Defined.

Lemma sort_idempotent_witness :
  exists lst',
    sort (H := BubbleSorter Z_order) 4 [3; 1; 4; 2] None None = Done lst'
    /\ sort (H := BubbleSorter Z_order) 4 lst' None None = Done lst'.
Proof.
  apply (sort_idempotent Z_order 4 [3; 1; 4; 2]).
  - exact Z_order_asymmetric.
  - simpl. lia.
Defined.

Lemma sort_index_error_witness :
  sort (H := BubbleSorter Z_order) 1 [1; 2] (Some 0) (Some 5)
  = Raise IndexError.
Proof. apply (sort_index_error Z_order 0 [1; 2] 0 5); simpl; lia. Defined.

Lemma sort_stable_witness :
  exists lst',
    sort (H := BubbleSorter Z_order) 4 [3; 1; 3; 2] None None = Done lst'
    /\ List.filter (Z.eqb 3) lst' = List.filter (Z.eqb 3) [3; 1; 3; 2].
Proof.
  apply (sort_stable Z_order (Z.eqb 3) 4 [3; 1; 3; 2]).
  - intros a b Hab Ha Hb. simpl in Hab.
    apply Z.eqb_eq in Ha, Hb. apply Z.ltb_lt in Hab. lia.
  - simpl. lia.
Defined.

End BubbleMoreWitnesses.

(** ** More on the SQL order visitor *)

Section SqlOrderMoreFacts.
Import SqlOrder SqlOrderSpec.
Context {Join Column : Type} `{EqDecision Join}.

Abbreviation Visitor' := (@SqlOrderSpecificationVisitor Join Column).

Lemma result_mapM_app {X Y : Type} (f : X -> result Y) (l1 l2 : list X) :
  result_mapM f (l1 ++ l2)
  = (a ← result_mapM f l1; b ← result_mapM f l2; Done (a ++ b)).
Proof.
  induction l1 as [|x l1 IH]; simpl.
  - destruct (result_mapM f l2); reflexivity.
  - unfold mbind, result_bind in *. destruct (f x); try reflexivity.
    rewrite IH. destruct (result_mapM f l1); try reflexivity.
    destruct (result_mapM f l2); reflexivity.
Qed.

(** What [__get_attr] returns and does to the heap. *)
Lemma get_attr_spec (v : Visitor') (attr_name : string)
    (h : gmap positive (list Join)) (js : list Join) :
  h !! __joins v = Some js ->
  __get_attr v attr_name h
  = (match resolve v attr_name with
     | Some col => Done col
     | None => Raise (AttributeError attr_name)
     end,
     match join_of v attr_name with
     | Some j => if bool_decide (j ∈ js) then h
                 else <[__joins v := js ++ [j]]> h
     | None => h
     end).
Proof.
  intros Hjs. unfold __get_attr, resolve, join_of.
  destruct (__order_conditions v !! attr_name) as [c|]; simpl.
  - unfold mbind, M_bind, read_list, modify_store, mret, M_ret. rewrite Hjs.
    case_bool_decide; reflexivity.
  - destruct (__klass v !! attr_name); reflexivity.
Qed.

(** Visiting an order specification returns the order expressions of its
    criteria from left to right, each on the column its attribute name
    resolves to, or raises [AttributeError] for the first attribute name
    that resolves to none. *)
Theorem sql_visit_exprs (v : Visitor') (spec : OrderSpecification)
    (h : gmap positive (list Join)) :
  joins_ok v h ->
  (visit v spec h).1 = sql_exprs v spec.
Proof.
  unfold sql_exprs. revert h.
  induction spec as [a | a | l IHl r IHr]; intros h Hok; simpl.
  - destruct Hok as (js & Hjs & _).
    unfold _asc_op, mbind, M_bind. rewrite (get_attr_spec v a h js Hjs).
    unfold order_expr. simpl. destruct (resolve v a); reflexivity.
  - destruct Hok as (js & Hjs & _).
    unfold _desc_op, mbind, M_bind. rewrite (get_attr_spec v a h js Hjs).
    unfold order_expr. simpl. destruct (resolve v a); reflexivity.
  - rewrite result_mapM_app. rewrite <- (IHl h Hok).
    pose proof (visit_joins_ok v l h Hok) as Hok1.
    unfold mbind at 1 2. unfold M_bind.
    destruct (visit v l h) as [[le|e|] h1]; simpl in *; try reflexivity.
    rewrite <- (IHr h1 Hok1).
    destruct (visit v r h1) as [[re|e|] h2]; reflexivity.
Qed.

(** What visiting does to the join list, stated for one attribute. *)
Lemma get_attr_joins (v : Visitor') (attr_name : string)
    (h : gmap positive (list Join)) (js : list Join) :
  h !! __joins v = Some js ->
  exists js',
    (__get_attr v attr_name h).2 !! __joins v = Some js'
    /\ js `prefix_of` js'
    /\ (forall l, l <> __joins v ->
          (__get_attr v attr_name h).2 !! l = h !! l)
    /\ (forall j, j ∈ js' -> j ∈ js \/ join_of v attr_name = Some j)
    /\ (forall j, join_of v attr_name = Some j -> j ∈ js').
Proof.
  intros Hjs. rewrite (get_attr_spec v attr_name h js Hjs). simpl.
  destruct (join_of v attr_name) as [j0|].
  - case_bool_decide as Hin.
    + exists js. repeat split; auto. intros j [= <-]. exact Hin.
    + exists (js ++ [j0]). split; [apply lookup_insert_eq |].
      split; [apply prefix_app_r; reflexivity |].
      split; [intros l Hl; rewrite lookup_insert_ne by congruence;
              reflexivity |].
      split.
      * intros j Hj. apply elem_of_app in Hj as [Hj | Hj]; [left; exact Hj |].
        apply list_elem_of_singleton in Hj. subst j. right. reflexivity.
      * intros j [= <-]. apply elem_of_app. right.
        apply list_elem_of_singleton. reflexivity.
  - exists js. repeat split; auto. intros j Hd. discriminate Hd.
Qed.

(** Visiting an order specification only appends to the join list of the
    visitor: the joins it had stay in place, every join added belongs to
    a criterion of the specification whose attribute has order
    conditions, no other list object changes, and when the visit returns
    the join of every such criterion is in the list. *)
Theorem sql_visit_joins (v : Visitor') (spec : OrderSpecification)
    (h : gmap positive (list Join)) (js : list Join) :
  h !! __joins v = Some js ->
  exists js',
    (visit v spec h).2 !! __joins v = Some js'
    /\ js `prefix_of` js'
    /\ (forall l, l <> __joins v -> (visit v spec h).2 !! l = h !! l)
    /\ (forall j, j ∈ js' ->
          j ∈ js
          \/ exists a d, (a, d) ∈ criteria spec /\ join_of v a = Some j)
    /\ ((exists es, (visit v spec h).1 = Done es) ->
        forall a d j,
          (a, d) ∈ criteria spec -> join_of v a = Some j -> j ∈ js').
Proof.
  revert h js.
  induction spec as [a | a | l IHl r IHr]; intros h js Hjs.
  - destruct (get_attr_joins v a h js Hjs) as (js' & H1 & H2 & H3 & H4 & H5).
    simpl. unfold _asc_op, mbind, M_bind.
    destruct (__get_attr v a h) as [[c|e|] h'] eqn:Hg; simpl in *;
      exists js'; (split; [exact H1 |]); (split; [exact H2 |]);
      (split; [exact H3 |]);
      (split;
       [ intros j Hj; destruct (H4 j Hj) as [Hl | Hr]; [left; exact Hl |];
         right; exists a, false; split;
         [apply list_elem_of_singleton; reflexivity | exact Hr]
       | intros _ a' d j Ha Hj'; apply list_elem_of_singleton in Ha;
         injection Ha as -> ->; exact (H5 j Hj') ]).
  - destruct (get_attr_joins v a h js Hjs) as (js' & H1 & H2 & H3 & H4 & H5).
    simpl. unfold _desc_op, mbind, M_bind.
    destruct (__get_attr v a h) as [[c|e|] h'] eqn:Hg; simpl in *;
      exists js'; (split; [exact H1 |]); (split; [exact H2 |]);
      (split; [exact H3 |]);
      (split;
       [ intros j Hj; destruct (H4 j Hj) as [Hl | Hr]; [left; exact Hl |];
         right; exists a, true; split;
         [apply list_elem_of_singleton; reflexivity | exact Hr]
       | intros _ a' d j Ha Hj'; apply list_elem_of_singleton in Ha;
         injection Ha as -> ->; exact (H5 j Hj') ]).
  - destruct (IHl h js Hjs) as (js1 & L1 & L2 & L3 & L4 & L5).
    simpl. unfold mbind, M_bind.
    destruct (visit v l h) as [[le|e|] h1] eqn:Hl; simpl in *.
    + destruct (IHr h1 js1 L1) as (js2 & R1 & R2 & R3 & R4 & R5).
      assert (Hall : forall j, j ∈ js2 ->
                j ∈ js \/ exists a d,
                  (a, d) ∈ criteria l ++ criteria r /\ join_of v a = Some j).
      { intros j Hj. destruct (R4 j Hj) as [Hj1 | (a & d & Ha & Hj')].
        - destruct (L4 j Hj1) as [Hj0 | (a & d & Ha & Hj')];
            [left; exact Hj0 |].
          right. exists a, d. split; [apply elem_of_app; left; exact Ha
                                     | exact Hj'].
        - right. exists a, d. split; [apply elem_of_app; right; exact Ha
                                     | exact Hj']. }
      destruct (visit v r h1) as [[re|e|] h2] eqn:Hr; simpl in *;
        exists js2; (split; [exact R1 |]);
        (split; [etransitivity; eassumption |]);
        (split; [intros x Hx; rewrite (R3 x Hx); exact (L3 x Hx) |]);
        (split; [exact Hall |]).
      * intros _ a d j Ha Hj. apply elem_of_app in Ha as [Ha | Ha].
        -- destruct R2 as [k ->]. apply elem_of_app. left.
           exact (L5 (ex_intro _ le eq_refl) a d j Ha Hj).
        -- exact (R5 (ex_intro _ re eq_refl) a d j Ha Hj).
      * intros [es Hes]. discriminate Hes.
      * intros [es Hes]. discriminate Hes.
    + exists js1. split; [exact L1 |]. split; [exact L2 |].
      split; [exact L3 |]. split.
      * intros j Hj. destruct (L4 j Hj) as [Hj0 | (a & d & Ha & Hj')];
          [left; exact Hj0 |].
        right. exists a, d. split; [apply elem_of_app; left; exact Ha
                                   | exact Hj'].
      * intros [es Hes]. discriminate Hes.
    + exists js1. split; [exact L1 |]. split; [exact L2 |].
      split; [exact L3 |]. split.
      * intros j Hj. destruct (L4 j Hj) as [Hj0 | (a & d & Ha & Hj')];
          [left; exact Hj0 |].
        right. exists a, d. split; [apply elem_of_app; left; exact Ha
                                   | exact Hj'].
      * intros [es Hes]. discriminate Hes.
Qed.

End SqlOrderMoreFacts.

Section SqlOrderWitnesses.
Import SqlOrder SqlOrderSpec SqlExamples.

Lemma sql_visit_exprs_witness :
  (visit visitor by_parent_then_id heap0).1
  = Done [DescExpr "parent.text"; AscExpr "my_entity.id";
          AscExpr "parent.text"].
Proof.
  rewrite (sql_visit_exprs visitor by_parent_then_id heap0).
  - vm_compute. reflexivity.
  - exists []. split; [reflexivity | constructor].
Defined.

Lemma sql_visit_joins_witness :
  exists js',
    (visit visitor by_parent_then_id heap0).2 !! __joins visitor = Some js'
    /\ [] `prefix_of` js'.
Proof.
  destruct (sql_visit_joins visitor by_parent_then_id heap0 [] eq_refl)
    as (js' & H1 & H2 & _).
  exists js'. split; assumption.
Defined.

End SqlOrderWitnesses.

(** ** More on the key function order visitor *)

Section KeyFunctionMoreFacts.
Import KeyFunctionOrder KeyFunctionSpec OrderExamples.

Lemma value_ltb_asym (a b : value) :
  value_ltb a b = true -> value_ltb b a = false.
Proof.
  destruct a as [|x|s], b as [|y|t]; simpl; try congruence.
  - intros Hxy. apply Z.ltb_lt in Hxy. apply Z.ltb_ge. lia.
  - rewrite (String.compare_antisym t s).
    destruct (String.compare s t); simpl; congruence.
Qed.

Lemma result_mapM_done {X Y : Type} (f : X -> result Y) (l : list X)
    (ys : list Y) :
  result_mapM f l = Done ys -> Forall2 (fun x y => f x = Done y) l ys.
Proof.
  revert ys. induction l as [|x l IH]; intros ys Hm; simpl in Hm.
  - injection Hm as <-. constructor.
  - unfold mbind, result_bind in Hm.
    destruct (f x) as [y|e|] eqn:Hf; try discriminate.
    destruct (result_mapM f l) as [ys'|e|]; try discriminate.
    injection Hm as <-. constructor; [exact Hf | apply IH; reflexivity].
Qed.

Section Insertion.
Context (first : value -> value -> bool).
Hypothesis first_asym : forall a b, first a b = true -> first b a = false.

Abbreviation in_order :=
  (fun p q : value * Entity => first q.1 p.1 = false).

Lemma insert_keyed_perm (x : value * Entity) (l : list (value * Entity)) :
  Permutation (x :: l) (insert_keyed first x l).
Proof.
  induction l as [|y l IH]; simpl; [reflexivity |].
  destruct (first y.1 x.1); [| reflexivity].
  etransitivity; [apply perm_swap | apply perm_skip, IH].
Qed.

Lemma insert_keyed_hd (x y : value * Entity) (l : list (value * Entity)) :
  HdRel in_order y l -> in_order y x ->
  HdRel in_order y (insert_keyed first x l).
Proof.
  intros Hhd Hyx. destruct l as [|z l]; simpl; [constructor; exact Hyx |].
  destruct (first z.1 x.1); constructor; [| exact Hyx].
  inversion Hhd; assumption.
Qed.

Lemma insert_keyed_sorted (x : value * Entity) (l : list (value * Entity)) :
  Sorted in_order l -> Sorted in_order (insert_keyed first x l).
Proof.
  induction 1 as [|y l Hs IH Hhd]; simpl; [repeat constructor |].
  destruct (first y.1 x.1) eqn:Hyx.
  - constructor; [exact IH |].
    apply insert_keyed_hd; [exact Hhd | exact (first_asym _ _ Hyx)].
  - constructor; [constructor; assumption |]. constructor. exact Hyx.
Qed.

Lemma insertion_sorted (l : list (value * Entity)) :
  Permutation l (foldr (insert_keyed first) [] l)
  /\ Sorted in_order (foldr (insert_keyed first) [] l).
Proof.
  induction l as [|x l [IHp IHs]]; simpl; [split; constructor |].
  split.
  - etransitivity; [apply perm_skip, IHp | apply insert_keyed_perm].
  - apply insert_keyed_sorted. exact IHs.
Qed.

End Insertion.

Lemma zip_keys (f : Entity -> result value) (entities : list Entity)
    (keys : list value) :
  Forall2 (fun x y => f x = Done y) entities keys ->
  (zip keys entities).*2 = entities
  /\ Forall (fun p => f p.2 = Done p.1) (zip keys entities).
Proof.
  induction 1 as [|e k entities keys Hk _ [IH1 IH2]]; csimpl;
    [split; constructor |].
  rewrite IH1. split; [reflexivity | constructor; assumption].
Qed.

(** What [sorted] returns: a permutation of the entities in which no
    entity is followed by one whose key belongs before its own. *)
Lemma sorted_spec (entities l' : list Entity) (a : string) (reverse : bool) :
  sorted entities (key_func a) reverse = Done l' ->
  Permutation entities l' /\ ordered_by a reverse l'.
Proof.
  unfold sorted, mbind, result_bind.
  destruct (result_mapM (key_func a) entities) as [keys|e|] eqn:Hk;
    try discriminate.
  intros [= <-].
  destruct (zip_keys _ _ _ (result_mapM_done _ _ _ Hk)) as [Hz Hf].
  set (first := if reverse then (fun a b => value_ltb b a) else value_ltb).
  assert (Hasym : forall x y, first x y = true -> first y x = false)
    by (intros x y; subst first; destruct reverse; apply value_ltb_asym).
  destruct (insertion_sorted first Hasym (zip keys entities)) as [Hp Hs].
  split.
  - rewrite <- Hz at 1. apply fmap_Permutation. exact Hp.
  - intros i x y Hx Hy.
    rewrite list_lookup_fmap in Hx, Hy.
    destruct (foldr (insert_keyed first) [] (zip keys entities) !! i)
      as [p|] eqn:Hpi; [| discriminate].
    destruct (foldr (insert_keyed first) [] (zip keys entities) !! S i)
      as [q|] eqn:Hqi; [| discriminate].
    simpl in Hx, Hy. injection Hx as <-. injection Hy as <-.
    pose proof (Sorted_adjacent _ _ Hs i p q Hpi Hqi) as Hpq.
    assert (Hin : forall r, r ∈ foldr (insert_keyed first) []
                                  (zip keys entities) ->
                            key_func a r.2 = Done r.1).
    { intros r Hr. rewrite <- Hp in Hr.
      rewrite Forall_forall in Hf. apply Hf. exact Hr. }
    pose proof (Hin p (list_elem_of_lookup_2 _ _ _ Hpi)) as Hkp.
    pose proof (Hin q (list_elem_of_lookup_2 _ _ _ Hqi)) as Hkq.
    unfold key_func in Hkp, Hkq.
    destruct (getattr p.2 a) as [kp|]; [| discriminate].
    destruct (getattr q.2 a) as [kq|]; [| discriminate].
    injection Hkp as Hkp. injection Hkq as Hkq.
    exists kp, kq. repeat split. rewrite Hkp, Hkq.
    subst first. destruct reverse; exact Hpq.
Qed.

(** The function built for an ascending criterion returns the entities
    as a list, permuted so that no entity is followed by one with a
    smaller value of the attribute; the one built for a descending
    criterion, so that none is followed by one with a larger value. *)
Theorem key_function_asc_desc (a : string) (entities : list Entity)
    (out : pyobj) :
  (_asc_op a entities = Done out ->
   exists l', out = PList (PEntity <$> l')
              /\ Permutation entities l' /\ ordered_by a false l')
  /\ (_desc_op a entities = Done out ->
      exists l', out = PList (PEntity <$> l')
                 /\ Permutation entities l' /\ ordered_by a true l').
Proof.
  unfold _asc_op, _desc_op, mbind, result_bind. split.
  - destruct (sorted entities (key_func a) false) as [l'|e|] eqn:Hs;
      try discriminate.
    intros [= <-]. exists l'. split; [reflexivity |].
    exact (sorted_spec _ _ _ _ Hs).
  - destruct (sorted entities (key_func a) true) as [l'|e|] eqn:Hs;
      try discriminate.
    intros [= <-]. exists l'. split; [reflexivity |].
    exact (sorted_spec _ _ _ _ Hs).
Qed.

Lemma mapM_key_func_returns (a : string) (entities : list Entity) :
  (forall e, e ∈ entities -> getattr e a <> None) ->
  exists keys, result_mapM (key_func a) entities = Done keys.
Proof.
  induction entities as [|x l IH]; intros Hall; [exists []; reflexivity |].
  simpl. unfold mbind, result_bind, key_func at 1.
  destruct (getattr x a) as [v|] eqn:Hx.
  - destruct IH as [keys Hk].
    + intros e He. apply Hall. apply list_elem_of_further. exact He.
    + rewrite Hk. eexists. reflexivity.
  - destruct (Hall x (list_elem_of_here _ _) Hx).
Qed.

Lemma key_function_done (a : string) (entities : list Entity) :
  (forall e, e ∈ entities -> getattr e a <> None) ->
  (exists l', _asc_op a entities = Done (PList (PEntity <$> l')))
  /\ (exists l', _desc_op a entities = Done (PList (PEntity <$> l'))).
Proof.
  intros Hall.
  destruct (mapM_key_func_returns a entities Hall) as [keys Hk].
  unfold _asc_op, _desc_op, sorted, mbind, result_bind. rewrite Hk.
  split; eexists; reflexivity.
Qed.

(** When every entity has a value under the name of the attribute, the
    functions built for an ascending and for a descending criterion both
    return a list of entities and raise nothing; every entity has an
    [id] and a [slug], so ordering by either of them always returns. *)
Theorem key_function_returns (a : string) (entities : list Entity) :
  ((forall e, e ∈ entities -> getattr e a <> None) ->
   (exists l', _asc_op a entities = Done (PList (PEntity <$> l')))
   /\ (exists l', _desc_op a entities = Done (PList (PEntity <$> l'))))
  /\ (exists l', _asc_op "id" entities = Done (PList (PEntity <$> l')))
  /\ (exists l', _desc_op "id" entities = Done (PList (PEntity <$> l')))
  /\ (exists l', _asc_op "slug" entities = Done (PList (PEntity <$> l')))
  /\ (exists l', _desc_op "slug" entities = Done (PList (PEntity <$> l'))).
Proof.
  split; [apply key_function_done |].
  assert (Hid : forall e, e ∈ entities -> getattr e "id" <> None)
    by (intros e _; discriminate).
  assert (Hslug : forall e, e ∈ entities -> getattr e "slug" <> None)
    by (intros e _; discriminate).
  destruct (key_function_done "id" entities Hid) as [H1 H2].
  destruct (key_function_done "slug" entities Hslug) as [H3 H4].
  auto.
Qed.

Lemma key_function_returns_witness :
  (exists l', _asc_op "a" [p0; p1; p2] = Done (PList (PEntity <$> l')))
  /\ (exists l', _desc_op "a" [p0; p1; p2] = Done (PList (PEntity <$> l'))).
Proof.
  apply (key_function_returns "a" [p0; p1; p2]).
  intros e He.
  repeat (apply elem_of_cons in He as [-> | He]; [vm_compute; discriminate |]).
  inversion He.
Defined.

(** Ordering by the [slug] property: the slugs are compared as strings. *)
Example key_function_by_slug :
  _desc_op "slug" [p0; p1; p2] = Done (PList (PEntity <$> [p2; p1; p0])).
Proof. vm_compute. reflexivity. Qed.

Lemma key_function_asc_desc_witness :
  exists l',
    PList (PEntity <$> [p1; p2; p0]) = PList (PEntity <$> l')
    /\ Permutation [p0; p1; p2] l'
    /\ ordered_by "a" false l'.
Proof.
  destruct (key_function_asc_desc "a" [p0; p1; p2]
              (PList (PEntity <$> [p1; p2; p0]))) as [Hasc _].
  apply Hasc. vm_compute. reflexivity.
Defined.

End KeyFunctionMoreFacts.

(** ** The CQL order visitor *)

Section CqlOrderFacts.
Import CqlOrder.

(** The attribute name of a CQL order criterion has the length of the
    attribute name of the specification, holds a hyphen wherever that
    name holds an underscore and the same character everywhere else; so
    it holds no underscore, and preprocessing it again changes nothing. *)
Theorem cql_attribute_has_no_underscore (ASCENDING DESCENDING name : string) :
  let attr := attr_name (_asc_op ASCENDING name) in
  attr = attr_name (_desc_op DESCENDING name)
  /\ String.length attr = String.length name
  /\ (forall (i : nat) (c : Ascii.ascii),
        String.get i name = Some c ->
        String.get i attr = Some (if Ascii.eqb c "_" then "-"%char else c))
  /\ (forall i : nat, String.get i attr <> Some "_"%char)
  /\ __preprocess_attribute attr = attr.
Proof.
  simpl. split; [reflexivity |].
  induction name as [|c rest (IHl & IHg & IHn & IHi)]; simpl.
  - repeat split; intros; discriminate.
  - split; [f_equal; exact IHl |].
    split.
    { intros [|i] c' Hc'; simpl in *;
        [injection Hc' as ->; reflexivity | exact (IHg i c' Hc')]. }
    split.
    { intros [|i]; simpl; [| exact (IHn i)].
      destruct (Ascii.eqb c "_") eqn:Hc; [discriminate |].
      intros [= ->]. discriminate Hc. }
    rewrite IHi.
    destruct (Ascii.eqb c "_") eqn:Hc; [reflexivity |].
    rewrite Hc. reflexivity.
Qed.

Lemma cql_attribute_has_no_underscore_witness :
  String.get 2 (attr_name (_asc_op "asc" "my_text_ent")) = Some "-"%char.
Proof.
  destruct (cql_attribute_has_no_underscore "asc" "desc" "my_text_ent")
    as (_ & _ & Hget & _).
  apply (Hget 2%nat "_"%char). reflexivity.
Defined.

End CqlOrderFacts.

(** ** More on aggregates *)

Section AggregateMoreFacts.
Import Aggregates AggregateSpec AggregateMore.
Context {W Query : Type} `{Collaborators W Query}.

Ltac munfold' :=
  unfold deref_root, attr, log, alloc, update_slots;
  unfold mbind, M_bind, mret, M_ret, raise, modify_store, liftW, deref.

Ltac mstep' :=
  first
    [ progress simpl
    | progress munfold'
    | match goal with
      | Hl : ?h !! ?l = _ |- context [?h !! ?l] => rewrite Hl
      | Hf : _filter_spec ?s = _ |- context [_filter_spec ?s] => rewrite Hf
      | Hf : _order_spec ?s = _ |- context [_order_spec ?s] => rewrite Hf
      | Hf : _slice_key ?s = _ |- context [_slice_key ?s] => rewrite Hf
      end
    | match goal with
      | |- context [let (_, _) := ?X in _] =>
          lazymatch X with
          | context [let (_, _) := _ in _] => fail
          | context [match _ with Some _ => _ | None => _ end] => fail
          | _ => destruct X as [[?|?|] ?] eqn:?
          end
      end ].

Ltac mrun' := repeat mstep'.

Lemma data_query_eq (st : State W) (self : positive) (a : Aggregate)
    (f : RootFields) :
  heap st !! self = Some a ->
  backing st a = Some f ->
  _get_data_query self st
  = liftW (data_pipeline f (effective_filter a)
             (_order_spec (slots_of a)) (_slice_key (slots_of a))) st.
Proof.
  destruct st as [h w t]. simpl. intros Hself Hback.
  unfold _get_data_query, _get_ordered_query, _get_filtered_query, query,
    _query_optimizer, _get_filter, expression_kind, entity_class, root_query,
    data_pipeline.
  destruct a as [s f0 | s [root|] [rel|]]; simpl in Hback; try discriminate.
  - injection Hback as ->.
    destruct (_filter_spec s) as [fs|] eqn:Hfs;
      destruct (_order_spec s) as [os|] eqn:Hos;
      destruct (_slice_key s) as [k|] eqn:Hk; mrun'; reflexivity.
  - destruct (h !! root) as [[sr fr|]|] eqn:Hroot; try discriminate.
    injection Hback as ->.
    destruct (_filter_spec s) as [fs|] eqn:Hfs;
      destruct (_order_spec s) as [os|] eqn:Hos;
      destruct (_slice_key s) as [k|] eqn:Hk; mrun'; reflexivity.
Qed.

(** An iteration runs the source query of the backing root aggregate,
    then the filter in force, then the order specification, then the
    slice, each only if it is set, and changes nothing but the world of
    the collaborators. *)
Theorem data_query_pipeline (st : State W) (self : positive) (a : Aggregate)
    (f : RootFields) :
  heap st !! self = Some a ->
  backing st a = Some f ->
  _get_data_query self st
  = liftW (data_pipeline f (effective_filter a)
             (_order_spec (slots_of a)) (_slice_key (slots_of a))) st.
Proof. exact (data_query_eq st self a f). Qed.

#[local] Arguments root_add : simpl never.
#[local] Arguments root_remove : simpl never.
#[local] Arguments root_get_by_id : simpl never.
#[local] Arguments root_lookup_by_id : simpl never.

(** The clone of a root aggregate reads as the original does: counting
    and building the query of an iteration give the same on both. *)
Theorem root_clone_reads_same (st : State W) (self : positive) (s : Slots)
    (f : RootFields) :
  heap st !! self = Some (RootAggregate s f) ->
  exists c st1,
    clone self st = (Done c, st1)
    /\ c <> self
    /\ world st1 = world st
    /\ (count c st1).1 = (count self st).1
    /\ (_get_data_query c st1).1 = (_get_data_query self st).1.
Proof.
  destruct st as [h w t]. simpl. intros Hself.
  unfold clone. rewrite bind_eq, (deref_lookup _ _ _ _ _ Hself). simpl.
  rewrite slots_eta, root_fields_eta. unfold alloc. simpl.
  assert (Hne : fresh (dom h) <> self).
  { intros Heq. pose proof (fresh_lookup h) as Hf. rewrite Heq in Hf.
    congruence. }
  eexists _, _. split; [reflexivity |].
  split; [exact Hne |]. split; [reflexivity |].
  pose proof (lookup_insert_eq h (fresh (dom h)) (RootAggregate s f)) as Hc.
  split.
  - rewrite (count_filtered _ _ (RootAggregate s f) f) by (simpl; auto).
    rewrite (count_filtered _ self (RootAggregate s f) f) by (simpl; auto).
    unfold liftW. simpl.
    destruct (filtered_count f (_filter_spec s) w). reflexivity.
  - rewrite (data_query_eq _ _ (RootAggregate s f) f) by (simpl; auto).
    rewrite (data_query_eq _ self (RootAggregate s f) f)
      by (simpl; auto).
    unfold liftW. simpl.
    destruct (data_pipeline f (_filter_spec s) (_order_spec s)
                (_slice_key s) w).
    reflexivity.
Qed.

(** [get_by_id] returns what the lookup behind it returns, with a found
    entity kept only if it satisfies the filter in force. *)
Lemma get_by_id_result (st : State W) (self : positive) (a : Aggregate)
    (f : RootFields) (id_key : value) :
  heap st !! self = Some a ->
  backing st a = Some f ->
  (get_by_id self id_key st).1
  = match (direct_lookup a id_key st).1 with
    | Done (Some e) => Done (visible_through (effective_filter a) e)
    | r => r
    end.
Proof.
  destruct st as [h w t]. simpl. intros Hself Hback.
  unfold get_by_id. rewrite bind_eq, (deref_lookup _ _ _ _ _ Hself).
  destruct a as [s f0 | s [root|] [rel|]]; simpl in Hback;
    try discriminate; simpl.
  - unfold root_get_by_id.
    rewrite bind_eq, (deref_root_lookup _ _ _ _ _ _ Hself). simpl.
    rewrite bind_eq.
    destruct (root_lookup_by_id f0 id_key _) as [r st2]. simpl.
    destruct r as [[e|]|ex|]; simpl; try reflexivity.
    unfold visible_through.
    destruct (_filter_spec s) as [fs|]; [| reflexivity].
    destruct (is_satisfied_by fs e); reflexivity.
  - unfold rel_get_by_id. simpl attr. rewrite ret_bind, bind_eq.
    destruct (root_get_by_id_frame h w t root id_key) as [w2 Hw2].
    destruct (root_get_by_id root id_key _) as [r st2].
    simpl in Hw2. subst st2. simpl.
    destruct r as [[e|]|ex|]; simpl; try reflexivity.
    apply (rel_check_filter_found _ _ _ _ _ _ _ _ Hself).
Qed.

(** [get_by_id] never returns an entity that fails the filter in force;
    on a relationship aggregate the entity returned always satisfies the
    specification of the relationship, whatever filter was set. *)
Theorem get_by_id_within_filter (st : State W) (self : positive)
    (a : Aggregate) (f : RootFields) (id_key : value) (e : Entity) :
  heap st !! self = Some a ->
  backing st a = Some f ->
  (get_by_id self id_key st).1 = Done (Some e) ->
  (forall fs, effective_filter a = Some fs -> is_satisfied_by fs e = true)
  /\ (forall s root rel,
        a = RelationshipAggregate s root (Some rel) ->
        is_satisfied_by (specification rel) e = true).
Proof.
  intros Hself Hback Hres.
  rewrite (get_by_id_result st self a f id_key Hself Hback) in Hres.
  assert (Hvis : forall fs, effective_filter a = Some fs ->
                            is_satisfied_by fs e = true).
  { intros fs Hfs.
    destruct (direct_lookup a id_key st).1 as [[e0|]|ex|];
      try discriminate.
    injection Hres as Hres. unfold visible_through in Hres.
    rewrite Hfs in Hres.
    destruct (is_satisfied_by fs e0) eqn:Hsat; [| discriminate].
    injection Hres as <-. exact Hsat. }
  split; [exact Hvis |].
  intros s root rel ->. simpl in Hvis.
  destruct (_filter_spec s) as [fs|].
  - specialize (Hvis _ eq_refl). simpl in Hvis.
    apply andb_true_iff in Hvis as [Hrel _]. exact Hrel.
  - exact (Hvis _ eq_refl).
Qed.


(** Without the ADD flag, [add] on a relationship aggregate is [add] of
    the relationship and nothing else; without the DELETE flag, or for an
    entity that has no id, [remove] is [remove] of the relationship and
    nothing else. The root aggregate is not even looked into. *)
Theorem rel_no_cascade (st : State W) (self : positive) (s : Slots)
    (root : positive) (rel : Relationship) (e : Entity) :
  heap st !! self = Some (RelationshipAggregate s (Some root) (Some rel)) ->
  (has_flag (cascade rel) CASCADES_ADD = false ->
   add self e st = call_relationship_add rel e st)
  /\ (has_flag (cascade rel) CASCADES_DELETE = false \/ id e = VNone ->
      remove self e st = call_relationship_remove rel e st).
Proof.
  destruct st as [h w t]. simpl. intros Hself. split.
  - intros Hflag. unfold add.
    rewrite bind_eq, (deref_lookup _ _ _ _ _ Hself).
    unfold rel_add. simpl attr. rewrite ret_bind, bind_eq, Hflag.
    destruct (call_relationship_add rel e _) as [[[]|ex|] st1]; reflexivity.
  - intros Hoff. unfold remove.
    rewrite bind_eq, (deref_lookup _ _ _ _ _ Hself).
    unfold rel_remove. simpl attr. rewrite ret_bind.
    destruct (has_flag (cascade rel) CASCADES_DELETE) eqn:Hflag.
    + destruct Hoff as [Hoff | Hid]; [discriminate |].
      rewrite Hid. simpl. rewrite bind_eq, ret_bind. reflexivity.
    + rewrite ret_bind. reflexivity.
Qed.

(** A relationship aggregate just made by a root aggregate has the
    specification of the relationship as its filter and counts what the
    source query of that root aggregate yields under it. *)
Theorem new_relationship_aggregate_counts (st : State W) (self : positive)
    (s : Slots) (f : RootFields) (rel : Relationship) :
  heap st !! self = Some (RootAggregate s f) ->
  exists c st1,
    make_relationship_aggregate self rel st = (Done c, st1)
    /\ heap st !! c = None
    /\ heap st1 !! self = Some (RootAggregate s f)
    /\ (_get_filter c st1).1 = Done (Some (specification rel))
    /\ count c st1
       = liftW (filtered_count f (Some (specification rel))) st1.
Proof.
  destruct st as [h w t]. simpl. intros Hself.
  unfold make_relationship_aggregate, alloc. simpl.
  assert (Hne : fresh (dom h) <> self).
  { intros Heq. pose proof (fresh_lookup h) as Hf. rewrite Heq in Hf.
    congruence. }
  eexists _, _. split; [reflexivity |].
  split; [apply fresh_lookup |]. simpl.
  split; [rewrite lookup_insert_ne by exact Hne; exact Hself |].
  pose proof (lookup_insert_eq h (fresh (dom h))
                (RelationshipAggregate__init__ self rel)) as Hc.
  split.
  - unfold _get_filter. rewrite bind_eq, (deref_lookup _ _ _ _ _ Hc).
    reflexivity.
  - apply (count_filtered _ _ (RelationshipAggregate__init__ self rel) f).
    + exact Hc.
    + simpl. rewrite lookup_insert_ne by exact Hne. rewrite Hself.
      reflexivity.
Qed.

(** Setting the filter, the order and the slice of an aggregate and
    reading them back: the order and the slice come back as set; the
    filter comes back as set on a root aggregate, and joined to the
    specification of the relationship on a relationship aggregate. *)
Theorem settings_round_trip (st : State W) (self : positive) (a : Aggregate)
    (flt : option FilterSpecification) (o : option OrderSpecification)
    (k : option slice) :
  heap st !! self = Some a ->
  (forall s root, a <> RelationshipAggregate s root None) ->
  let st' :=
    (_set_slice self k (_set_order self o (_set_filter self flt st).2).2).2 in
  (_get_order self st').1 = Done o
  /\ (_get_slice self st').1 = Done k
  /\ (_get_filter self st').1
     = Done (effective_filter
               (with_slots a {| _filter_spec := flt;
                                _order_spec := o; _slice_key := k |}))
  /\ world st' = world st
  /\ (forall l, l <> self -> heap st' !! l = heap st !! l).
Proof.
  destruct st as [h w t]. simpl. intros Hself Hrel.
  unfold _set_filter, _set_order, _set_slice.
  rewrite (update_slots_lookup _ _ _ _ _ _ Hself). simpl.
  rewrite (update_slots_lookup _ _ _ _ _ _ (lookup_insert_eq _ _ _)). simpl.
  rewrite (update_slots_lookup _ _ _ _ _ _ (lookup_insert_eq _ _ _)). simpl.
  rewrite !insert_insert_eq, !with_slots_with_slots, !slots_of_with_slots.
  simpl.
  match goal with
  | |- context [<[self := ?b]> h] =>
      pose proof (lookup_insert_eq h self b) as Hb
  end.
  unfold _get_order, _get_slice, _get_filter.
  rewrite !bind_eq, !(deref_lookup _ _ _ _ _ Hb).
  rewrite slots_of_with_slots. simpl.
  split; [reflexivity |]. split; [reflexivity |].
  split.
  - destruct a as [s f | s root [rel|]]; simpl.
    + reflexivity.
    + destruct flt; reflexivity.
    + destruct (Hrel s root eq_refl).
  - split; [reflexivity |].
    intros l Hl. apply lookup_insert_ne. congruence.
Qed.

End AggregateMoreFacts.

Section AggregateMoreWitnesses.
Import Aggregates AggregateSpec AggregateMore MemoryWorld AggregateExamples.

Lemma data_query_pipeline_witness :
  let st := state0 1 [child 1; child 20] in
  _get_data_query 2%positive st
  = liftW (data_pipeline child_root
             (Some (specification (children 1))) None None) st.
Proof.
  intros st.
  apply (data_query_pipeline st 2%positive
           (RelationshipAggregate no_slots (Some 1%positive)
              (Some (children 1))) child_root); reflexivity.
Defined.

Lemma root_clone_independent_witness :
  let st := state0 1 [child 1] in
  let g := fun s : Slots =>
             {| _filter_spec := Some (specification (children 1));
                _order_spec := _order_spec s; _slice_key := _slice_key s |} in
  exists c st1,
    clone 1%positive st = (Done c, st1)
    /\ c <> 1%positive
    /\ heap st1 !! c = Some (RootAggregate no_slots child_root)
    /\ heap st1 !! 1%positive = Some (RootAggregate no_slots child_root)
    /\ heap (update_slots c g st1).2 !! 1%positive
       = Some (RootAggregate no_slots child_root)
    /\ heap (update_slots c g st1).2 !! c
       = Some (RootAggregate (g no_slots) child_root).
Proof.
  intros st g.
  apply (root_clone_independent st 1%positive no_slots child_root g).
  reflexivity.
Defined.

Lemma root_clone_reads_same_witness :
  let st := state0 1 [child 1] in
  exists c st1,
    clone 1%positive st = (Done c, st1)
    /\ c <> 1%positive
    /\ world st1 = world st
    /\ (count c st1).1 = (count 1%positive st).1
    /\ (_get_data_query c st1).1 = (_get_data_query 1%positive st).1.
Proof.
  intros st.
  apply (root_clone_reads_same st 1%positive no_slots child_root).
  reflexivity.
Defined.

Lemma get_by_id_within_filter_witness :
  is_satisfied_by (specification (children 1)) (child 1) = true.
Proof.
  assert (Hfound : (get_by_id 2%positive (VInt 1) (state0 1 [child 1])).1
                   = Done (Some (child 1))) by (vm_compute; reflexivity).
  destruct (get_by_id_within_filter (state0 1 [child 1]) 2%positive
              (RelationshipAggregate no_slots (Some 1%positive)
                 (Some (children 1)))
              child_root (VInt 1) (child 1) eq_refl eq_refl Hfound)
    as [_ Hrel].
  apply (Hrel no_slots (Some 1%positive) (children 1)). reflexivity.
Defined.


Lemma rel_no_cascade_witness :
  let st := state0 0 [child 1] in
  add 2%positive (child 1) st = call_relationship_add (children 0) (child 1) st
  /\ remove 2%positive (child 1) st
     = call_relationship_remove (children 0) (child 1) st.
Proof.
  intros st.
  destruct (rel_no_cascade st 2%positive no_slots 1%positive (children 0)
              (child 1) eq_refl) as [Hadd Hremove].
  split; [apply Hadd; reflexivity | apply Hremove; left; reflexivity].
Defined.

Lemma new_relationship_aggregate_counts_witness :
  let st := state0 1 [child 1; child 20] in
  exists c st1,
    make_relationship_aggregate 1%positive (children 3) st = (Done c, st1)
    /\ heap st !! c = None
    /\ heap st1 !! 1%positive = Some (RootAggregate no_slots child_root)
    /\ (_get_filter c st1).1 = Done (Some (specification (children 3)))
    /\ count c st1
       = liftW (filtered_count child_root
                  (Some (specification (children 3)))) st1.
Proof.
  intros st.
  apply (new_relationship_aggregate_counts st 1%positive no_slots child_root
           (children 3)).
  reflexivity.
Defined.

Lemma settings_round_trip_witness :
  let st := state0 1 [child 1] in
  let k := {| start := Some 0; stop := Some 1 |} in
  let st' :=
    (_set_slice 1%positive (Some k)
       (_set_order 1%positive (Some (AscendingOrderSpecification "id"))
          (_set_filter 1%positive None st).2).2).2 in
  (_get_order 1%positive st').1
  = Done (Some (AscendingOrderSpecification "id"))
  /\ (_get_slice 1%positive st').1 = Done (Some k).
Proof.
  intros st k st'.
  destruct (settings_round_trip st 1%positive
              (RootAggregate no_slots child_root) None
              (Some (AscendingOrderSpecification "id")) (Some k) eq_refl)
    as (Ho & Hk & _).
  - intros s root Heq. discriminate Heq.
  - split; assumption.
Defined.

End AggregateMoreWitnesses.

(** ** The view for POST on a collection *)

Section PostCollectionFacts.
Import PostCollection.
Context {Collection Member Url Status Response : Type}.
Context (member_name : Member -> string)
        (context_get : Collection -> string -> option Member)
        (context_add : Member -> Collection -> Collection)
        (_handle_conflict : string -> Response)
        (resource_to_url_member : Member -> Url)
        (resource_to_url_collection : Collection -> Url)
        (created_status : Status).

Abbreviation loop := (add_new_members member_name context_get context_add).
Abbreviation process :=
  (_process_request_data member_name context_get context_add
     _handle_conflict resource_to_url_member resource_to_url_collection
     created_status).
Abbreviation added := (add_all context_add).

Lemma add_all_app (l1 l2 : list Member) (c : Collection) :
  added (l1 ++ l2) c = added l2 (added l1 c).
Proof. unfold add_all. apply foldl_app. Qed.

(** What the loop leaves: without conflict all members were added in
    order; with a conflict on [name], the members before the first one
    of that name found in the collection were added and stay added, and
    that one and those after it were not. *)
Lemma add_new_members_spec (members : list Member) (c : Collection) :
  match loop members c with
  | (None, c') =>
      c' = added members c
      /\ forall pre m post,
           members = pre ++ m :: post ->
           context_get (added pre c) (member_name m) = None
  | (Some name, c') =>
      exists pre m post,
        members = pre ++ m :: post
        /\ name = member_name m
        /\ c' = added pre c
        /\ context_get c' name <> None
        /\ forall pre' m' post',
             pre = pre' ++ m' :: post' ->
             context_get (added pre' c) (member_name m') = None
  end.
Proof.
  revert c. induction members as [|x members IH]; intros c; simpl.
  - split; [reflexivity |]. intros pre m post Heq.
    destruct pre; discriminate Heq.
  - destruct (context_get c (member_name x)) as [old|] eqn:Hget.
    + exists [], x, members. repeat split; try reflexivity.
      * simpl. rewrite Hget. discriminate.
      * intros pre' m' post' Heq. destruct pre'; discriminate Heq.
    + specialize (IH (context_add x c)).
      destruct (loop members (context_add x c)) as [[name|] c'].
      * destruct IH as (pre & m & post & -> & -> & -> & Hfound & Hpre).
        exists (x :: pre), m, post. repeat split; try reflexivity.
        -- exact Hfound.
        -- intros pre' m' post' Heq. destruct pre' as [|y pre'].
           ++ simpl in Heq. injection Heq as <- _. exact Hget.
           ++ simpl in Heq. injection Heq as <- Heq.
              exact (Hpre pre' m' post' Heq).
      * destruct IH as [-> Hall]. split; [reflexivity |].
        intros pre m post Heq. destruct pre as [|y pre].
        -- simpl in Heq. injection Heq as <- _. exact Hget.
        -- simpl in Heq. injection Heq as <- Heq.
           exact (Hall pre m post Heq).
Qed.

(** A POST either creates all posted members, adding them to the
    collection in the order posted (for a posted collection without
    members: none, and the outcome is still "created"), or answers with
    the conflict on the first posted member whose name the collection
    has when its turn comes; in that case the members posted before it
    have been added and stay added. *)
Theorem post_creates_or_conflicts (data : Data) (c : Collection) :
  (exists location,
      process data c
      = (Created created_status location data, added (new_members data) c)
      /\ location = match data with
                    | MemberData m => resource_to_url_member m
                    | CollectionData ms =>
                        resource_to_url_collection (added ms c)
                    end
      /\ forall pre m post,
           new_members data = pre ++ m :: post ->
           context_get (added pre c) (member_name m) = None)
  \/ (exists pre m post,
        new_members data = pre ++ m :: post
        /\ process data c
           = (Conflict (_handle_conflict (member_name m)), added pre c)
        /\ context_get (added pre c) (member_name m) <> None
        /\ forall pre' m' post',
             pre = pre' ++ m' :: post' ->
             context_get (added pre' c) (member_name m') = None).
Proof.
  unfold _process_request_data.
  pose proof (add_new_members_spec (new_members data) c) as Hspec.
  destruct (loop (new_members data) c) as [[name|] c'].
  - right. destruct Hspec as (pre & m & post & Heq & -> & -> & Hfound & Hpre).
    exists pre, m, post. repeat split; assumption.
  - left. destruct Hspec as [-> Hall]. eexists. split; [reflexivity |].
    split; [destruct data; reflexivity | exact Hall].
Qed.

Section NameKeyed.
(** A collection that finds a member by its name once it was added, and
    in which adding a member changes nothing for other names. *)
Hypothesis get_add_same :
  forall m c, context_get (context_add m c) (member_name m) <> None.
Hypothesis get_add_other :
  forall m c name,
    name <> member_name m ->
    context_get (context_add m c) name = context_get c name.

Lemma get_added (pre : list Member) (c : Collection) (name : string) :
  context_get (added pre c) name = None <->
    context_get c name = None /\ name ∉ member_name <$> pre.
Proof.
  revert c. induction pre as [|x pre IH]; intros c; simpl.
  - split; [intros Hc; split; [exact Hc | inversion 1] | intros [Hc _]; exact Hc].
  - change (add_all context_add (x :: pre) c)
      with (added pre (context_add x c)).
    rewrite IH. rewrite not_elem_of_cons.
    destruct (decide (name = member_name x)) as [-> | Hne].
    + split.
      * intros [Hx _]. destruct (get_add_same x c Hx).
      * intros [_ [Hx _]]. congruence.
    + rewrite (get_add_other x c name Hne). tauto.
Qed.

Lemma NoDup_fmap_prefixes (l : list Member) :
  (forall pre m post,
     l = pre ++ m :: post -> member_name m ∉ member_name <$> pre) ->
  NoDup (member_name <$> l).
Proof.
  induction l as [|x l IH] using rev_ind; intros Hall; [constructor |].
  rewrite fmap_app. apply NoDup_app. split; [| split].
  - apply IH. intros pre m post Heq.
    apply (Hall pre m (post ++ [x])). rewrite Heq, <- app_assoc.
    reflexivity.
  - intros n Hn Hn'. simpl in Hn'. apply list_elem_of_singleton in Hn'.
    subst n. exact (Hall l x [] eq_refl Hn).
  - simpl. apply NoDup_singleton.
Qed.

(** On such a collection a POST creates the members exactly when their
    names are pairwise different and none of them is in the collection;
    so posting two members of the same name always ends in a conflict. *)
Theorem post_created_iff_names_new (data : Data) (c : Collection) :
  (exists location,
      process data c
      = (Created created_status location data, added (new_members data) c))
  <-> NoDup (member_name <$> new_members data)
      /\ forall m, m ∈ new_members data ->
                   context_get c (member_name m) = None.
Proof.
  unfold _process_request_data.
  pose proof (add_new_members_spec (new_members data) c) as Hspec.
  destruct (loop (new_members data) c) as [[name|] c'].
  - destruct Hspec as (pre & m & post & Heq & -> & -> & Hfound & _).
    split; [intros [location Hp]; discriminate Hp |].
    intros [Hnd Hnew]. exfalso. apply Hfound. apply get_added. split.
    + apply Hnew. rewrite Heq. apply elem_of_app. right.
      apply list_elem_of_here.
    + rewrite Heq, fmap_app in Hnd. apply NoDup_app in Hnd as (_ & Hdis & _).
      intros Hin. apply (Hdis _ Hin). simpl. apply list_elem_of_here.
  - destruct Hspec as [-> Hall]. split.
    + intros _. split.
      * apply NoDup_fmap_prefixes. intros pre m post Heq.
        exact (proj2 (proj1 (get_added pre c _) (Hall pre m post Heq))).
      * intros m Hm. apply list_elem_of_split in Hm as (pre & post & Heq).
        exact (proj1 (proj1 (get_added pre c _) (Hall pre m post Heq))).
    + intros _. eexists. reflexivity.
Qed.

End NameKeyed.

End PostCollectionFacts.

Section PostCollectionWitnesses.
Import PostCollection PostCollectionExamples.

Lemma post_created_iff_names_new_witness :
  (exists location,
      _process_request_data (fun m : string => m) names_get names_add
        (fun name => name) (fun m => m) (fun _ => "collection") 201
        (CollectionData ["a"; "b"]) ["c"]
      = (Created 201 location (CollectionData ["a"; "b"]),
         add_all names_add (new_members (CollectionData ["a"; "b"])) ["c"]))
  <-> NoDup ((fun m : string => m) <$> new_members (CollectionData ["a"; "b"]))
      /\ forall m, m ∈ new_members (CollectionData ["a"; "b"]) ->
                   names_get ["c"] m = None.
Proof.
  apply (post_created_iff_names_new (fun m : string => m) names_get names_add
           (fun name => name) (fun m => m) (fun _ => "collection") 201).
  - intros m c. unfold names_get, names_add.
    rewrite bool_decide_eq_true_2; [discriminate |].
    apply elem_of_app. right. apply list_elem_of_here.
  - intros m c name Hne. unfold names_get, names_add.
    rewrite (bool_decide_ext (name ∈ c ++ [m]) (name ∈ c)); [reflexivity |].
    rewrite elem_of_app, list_elem_of_singleton. tauto.
Defined.

End PostCollectionWitnesses.
